(** * CSV membership-activation uploader (src/components/Fileupload.tsx)

    A shallow embedding of the logic of [CsvFileUploader]: the zod schema
    [csvSchema], the [complete] callback handed to [Papa.parse], the
    per-row lookup [fetchActivationStatusForRow], the [Promise.all] join,
    and the two download handlers.

    Text is a Rocq [string]: a sequence of 8-bit code units, standing for
    the Latin-1 range of JavaScript's code units.

    The component is written against zod 3 (it reads [error.errors]);
    the library calls it makes are modelled after that release. *)

From Stdlib Require Import ZArith Ascii String List Bool Lia DecimalString
  DecimalNat.
From stdpp Require Import base option list strings gmap.

Local Open Scope string_scope.
Local Open Scope Z_scope.
Local Open Scope list_scope.

(** ** JavaScript primitives used by the component *)

Module Js.

(** [Array.prototype.join] on an array of strings. *)
Fixpoint join (sep : string) (l : list string) : string :=
  match l with
  | [] => EmptyString
  | [x] => x
  | x :: rest => x +:+ sep +:+ join sep rest
  end.

(** Template-literal rendering of an array index ([`${index + 1}`]):
    plain decimal digits. *)
Definition nat_toString (n : nat) : string :=
  NilZero.string_of_uint (Nat.to_uint n).

(** White space and line terminators that [String.prototype.trim] and the
    string-to-number conversion strip (TAB, LF, VT, FF, CR, SP, NBSP). *)
Definition is_space (c : ascii) : bool :=
  let n := nat_of_ascii c in
  ((9 <=? n) && (n <=? 13) || (n =? 32) || (n =? 160))%nat.

Fixpoint trim_start (l : list ascii) : list ascii :=
  match l with
  | c :: r => if is_space c then trim_start r else l
  | [] => []
  end.

Definition trim (l : list ascii) : list ascii :=
  rev (trim_start (rev (trim_start l))).

(** A JavaScript number, as far as the component can tell numbers apart:
    NaN, the two infinities, and the finite values.  A finite value is
    kept as the decimal [(-1)^neg * m * 10^e] it was read from; the
    engine stores the nearest binary64 value. *)
Inductive number : Type :=
  | NaN
  | Infinity (neg : bool)
  | Finite (neg : bool) (m : Z) (e : Z).

Definition zero : number := Finite false 0 0.

(** [Number.isNaN] and [Number.isFinite]. *)
Definition isNaN (v : number) : bool :=
  match v with NaN => true | _ => false end.

Definition isFinite (v : number) : bool :=
  match v with Finite _ _ _ => true | _ => false end.

(** Magnitudes from [2^1024 - 2^970] on round to an infinity. *)
Definition overflow_threshold : Z := 2 ^ 1024 - 2 ^ 970.

Definition overflows (m e : Z) : bool :=
  if 0 <=? e then overflow_threshold <=? m * 10 ^ e
  else overflow_threshold * 10 ^ (- e) <=? m.

Definition round (neg : bool) (m e : Z) : number :=
  if overflows m e then Infinity neg else Finite neg m e.

Definition digit_val (base : Z) (c : ascii) : option Z :=
  let n := Z.of_nat (nat_of_ascii c) in
  let v :=
    if (48 <=? n) && (n <=? 57) then Some (n - 48)
    else if (97 <=? n) && (n <=? 102) then Some (n - 87)
    else if (65 <=? n) && (n <=? 70) then Some (n - 55)
    else None in
  match v with
  | Some d => if d <? base then Some d else None
  | None => None
  end.

(** Longest run of digits of [base] at the head of [l]: accumulated
    value, number of digits read, rest of the text. *)
Fixpoint digits (base : Z) (l : list ascii) (acc : Z) (n : nat)
  : Z * nat * list ascii :=
  match l with
  | c :: r =>
      match digit_val base c with
      | Some d => digits base r (acc * base + d) (S n)
      | None => (acc, n, l)
      end
  | [] => (acc, n, [])
  end.

Definition is_char (c : ascii) (s : string) : bool :=
  match s with
  | String d EmptyString => Ascii.eqb c d
  | _ => false
  end.

(** ExponentPart, which must run to the end of the text. *)
Definition exponent_part (l : list ascii) : option Z :=
  match l with
  | [] => Some 0
  | c :: r =>
      if is_char c "e" || is_char c "E" then
        let '(sgn, r') :=
          match r with
          | s :: r' =>
              if is_char s "+" then (1, r')
              else if is_char s "-" then (-1, r')
              else (1, r)
          | [] => (1, r)
          end in
        match digits 10 r' 0 0 with
        | (v, S _, []) => Some (sgn * v)
        | _ => None
        end
      else None
  end.

(** StrUnsignedDecimalLiteral: [Infinity], [d+ . d* exp?], [. d+ exp?],
    [d+ exp?]. *)
Definition unsigned_decimal (neg : bool) (l : list ascii) : number :=
  if String.eqb (string_of_list_ascii l) "Infinity" then Infinity neg
  else
    let '(ip, ni, r1) := digits 10 l 0 0 in
    let '(mant, nf, r2) :=
      match r1 with
      | c :: r => if is_char c "." then digits 10 r ip 0 else (ip, 0%nat, r1)
      | [] => (ip, 0%nat, r1)
      end in
    if (ni + nf =? 0)%nat then NaN
    else
      match exponent_part r2 with
      | Some x => round neg mant (x - Z.of_nat nf)
      | None => NaN
      end.

Definition str_decimal (l : list ascii) : number :=
  match l with
  | c :: r =>
      if is_char c "+" then unsigned_decimal false r
      else if is_char c "-" then unsigned_decimal true r
      else unsigned_decimal false l
  | [] => unsigned_decimal false l
  end.

(** NonDecimalIntegerLiteral after its two-character prefix. *)
Definition non_decimal (base : Z) (l : list ascii) : number :=
  match digits base l 0 0 with
  | (v, S _, []) => round false v 0
  | _ => NaN
  end.

(** [Number(s)] on a string (StringToNumber): surrounding white space is
    dropped, the empty text is [+0], anything outside the numeric
    grammar is [NaN]. *)
Definition Number (s : string) : number :=
  match trim (list_ascii_of_string s) with
  | [] => zero
  | (c :: r) as l =>
      if is_char c "0" then
        match r with
        | x :: r' =>
            if is_char x "x" || is_char x "X" then non_decimal 16 r'
            else if is_char x "o" || is_char x "O" then non_decimal 8 r'
            else if is_char x "b" || is_char x "B" then non_decimal 2 r'
            else str_decimal l
        | [] => str_decimal l
        end
      else str_decimal l
  end.

(** [Number(v)] where [v] is a property read from an object: a missing
    property reads [undefined], which converts to [NaN]. *)
Definition Number_of_prop (v : option string) : number :=
  match v with
  | Some s => Number s
  | None => NaN
  end.

(** Outcome of evaluating code that may throw. *)
Inductive error : Type :=
  | TypeError (msg : string)
  | SyntaxError (msg : string).

Inductive completion (A : Type) : Type :=
  | Normal (a : A)
  | Throw (e : error).
Arguments Normal {A} a.
Arguments Throw {A} e.

Definition bind {A B} (c : completion A) (k : A -> completion B) : completion B :=
  match c with
  | Normal a => k a
  | Throw e => Throw e
  end.

(** [try { body } catch (e) { handler e }]. *)
Definition try_catch {A} (body : completion A) (handler : error -> completion A)
  : completion A :=
  match body with
  | Normal a => Normal a
  | Throw e => handler e
  end.

(** Values produced by [JSON.parse]. *)
#[warnings="-register-all"] Inductive json : Type :=
  | JNull
  | JBool (b : bool)
  | JNumber (n : number)
  | JString (s : string)
  | JArray (items : list json)
  | JObject (members : list (string * json)).

(** The result of a property read: a JSON value or [undefined]. *)
Inductive value : Type :=
  | Undefined
  | Val (j : json).

Fixpoint assoc (k : string) (members : list (string * json)) : option json :=
  match members with
  | [] => None
  | (k', v) :: rest =>
      match assoc k rest with
      | Some later => Some later
      | None => if String.eqb k k' then Some v else None
      end
  end.

(** [j.name] for a name that no prototype defines: reading a property of
    [null] throws, an object yields its own member (the last one when
    the text repeated the key), every other value yields [undefined]. *)
Definition get (j : json) (name : string) : completion value :=
  match j with
  | JNull => Throw (TypeError "Cannot read properties of null")
  | JObject members =>
      match assoc name members with
      | Some v => Normal (Val v)
      | None => Normal Undefined
      end
  | _ => Normal Undefined
  end.

(** [v === true]. *)
Definition is_true (v : value) : bool :=
  match v with
  | Val (JBool true) => true
  | _ => false
  end.

End Js.

#[global] Instance completion_ret : MRet Js.completion := @Js.Normal.
#[global] Instance completion_bind : MBind Js.completion :=
  fun A B k c => Js.bind c k.

(** ** PapaParse, as the component calls it

    [Papa.parse(csvString, {header: true, skipEmptyLines: true})] and
    [Papa.unparse] with its default settings.  The delimiter and the line
    break that PapaParse detects from the text are taken as given (a
    [dialect]); its quote character is the double quote. *)

Module Papa.

Definition quote : ascii := "034"%char.
Definition lf : ascii := "010"%char.
Definition cr : ascii := "013"%char.

Inductive newline : Type := LF | CR | CRLF.

Record dialect : Type := Dialect {
  delimiter : ascii;
  line_break : newline
}.

(** What the detection yields on comma-separated text without carriage
    returns. *)
Definition comma_lf : dialect := Dialect ","%char LF.

(** Does the line break start at [c]?  [Some k]: yes, and it takes [k]
    further characters of [rest]. *)
Definition starts_newline (nl : newline) (c : ascii) (rest : list ascii)
  : option nat :=
  match nl with
  | LF => if Ascii.eqb c lf then Some 0%nat else None
  | CR => if Ascii.eqb c cr then Some 0%nat else None
  | CRLF =>
      if Ascii.eqb c cr then
        match rest with
        | c' :: _ => if Ascii.eqb c' lf then Some 1%nat else None
        | [] => None
        end
      else None
  end.

Inductive separator : Type := EndOfField | EndOfRow.

(** After a quote inside a quoted field: the quote closes the field when
    only white space separates it from the next delimiter or line break.
    Returns which of the two ends the field and how many characters
    after the quote are consumed. *)
Fixpoint closing (d : dialect) (rest : list ascii) (skipped : nat)
  : option (separator * nat) :=
  match rest with
  | [] => None
  | c :: r =>
      if Ascii.eqb c (delimiter d) then Some (EndOfField, S skipped)
      else
        match starts_newline (line_break d) c r with
        | Some k => Some (EndOfRow, S (skipped + k))
        | None => if Js.is_space c then closing d r (S skipped) else None
        end
  end.

Inductive mode : Type := FieldStart | Unquoted | Quoted.

Definition text (rev_chars : list ascii) : string :=
  string_of_list_ascii (rev rev_chars).

(** The last field and row are pushed when the text ends. *)
Definition finish (fld : list ascii) (row : list string)
    (rows : list (list string)) : list (list string) :=
  rev (rev (text fld :: row) :: rows).

(** The row parser.  [skip] characters are still to be stepped over;
    [fld] is the current field (escaped quotes already collapsed) and
    [raw] its text as written, both reversed; [row] and [rows] are the
    fields and rows completed so far, reversed. *)
Fixpoint scan (d : dialect) (input : list ascii) (skip : nat) (m : mode)
    (fld raw : list ascii) (row : list string) (rows : list (list string))
  : list (list string) :=
  match input with
  | [] =>
      match m with
      | Quoted => finish raw row rows
      | _ => finish fld row rows
      end
  | c :: rest =>
      match skip with
      | S k => scan d rest k m fld raw row rows
      | O =>
          match m with
          | Quoted =>
              if Ascii.eqb c quote then
                match rest with
                | [] => finish fld row rows
                | c' :: _ =>
                    if Ascii.eqb c' quote then
                      scan d rest 1 Quoted (quote :: fld) (quote :: quote :: raw)
                        row rows
                    else
                      match closing d rest 0 with
                      | Some (EndOfField, k) =>
                          scan d rest k FieldStart [] [] (text fld :: row) rows
                      | Some (EndOfRow, k) =>
                          scan d rest k FieldStart [] []
                            [] (rev (text fld :: row) :: rows)
                      | None =>
                          scan d rest 0 Quoted (quote :: fld) (quote :: raw)
                            row rows
                      end
                end
              else scan d rest 0 Quoted (c :: fld) (c :: raw) row rows
          | _ =>
              if match m with FieldStart => Ascii.eqb c quote | _ => false end
              then scan d rest 0 Quoted [] [] row rows
              else if Ascii.eqb c (delimiter d) then
                scan d rest 0 FieldStart [] [] (text fld :: row) rows
              else
                match starts_newline (line_break d) c rest with
                | Some k =>
                    scan d rest k FieldStart [] []
                      [] (rev (text fld :: row) :: rows)
                | None => scan d rest 0 Unquoted (c :: fld) raw row rows
                end
          end
      end
  end.

Definition Parser (d : dialect) (input : string) : list (list string) :=
  scan d (list_ascii_of_string input) 0 FieldStart [] [] [] [].

(** [skipEmptyLines: true] drops the rows that hold one empty field. *)
Definition testEmptyLine (row : list string) : bool :=
  match row with
  | [s] => (String.length s =? 0)%nat
  | _ => false
  end.

(** A data row keyed by the header names.  Cells beyond the header go to
    the [__parsed_extra] bucket, which the schema never reads and which
    is left out here; a name without a cell stays absent. *)
Definition processRow (fields : list string) (cells : list string)
  : gmap string string :=
  fold_left (fun obj kv => <[kv.1 := kv.2]> obj) (zip fields cells) ∅.

Record results : Type := Results {
  data : list (gmap string string);
  meta_fields : option (list string)
}.

(** With [header: true] the first row that is left names the fields and
    is removed from the data.  Later PapaParse releases rename a header
    name that occurs twice by appending [_1], [_2], ...; this is left
    out, since the expected names are distinct and free of underscores:
    a header that needs renaming differs from them before and after. *)
Definition parse (d : dialect) (input : string) : results :=
  match List.filter (fun r => negb (testEmptyLine r)) (Parser d input) with
  | [] => Results [] (Some [])
  | header :: rows => Results (map (processRow header) rows) (Some header)
  end.

(** [Papa.unparse]: a field is quoted when it holds a quote, a line
    break or the delimiter, or starts or ends with a space. *)
Fixpoint escape_quotes (l : list ascii) : list ascii :=
  match l with
  | [] => []
  | c :: r =>
      if Ascii.eqb c quote then quote :: quote :: escape_quotes r
      else c :: escape_quotes r
  end.

Definition is_bad (c : ascii) : bool :=
  Ascii.eqb c cr || Ascii.eqb c lf || Ascii.eqb c quote || Ascii.eqb c ","%char.

Definition needs_quotes (l : list ascii) : bool :=
  existsb is_bad l
  || match l with c :: _ => Ascii.eqb c " "%char | [] => false end
  || match rev l with c :: _ => Ascii.eqb c " "%char | [] => false end.

Definition safe (s : string) : string :=
  let e := escape_quotes (list_ascii_of_string s) in
  string_of_list_ascii (if needs_quotes e then quote :: e ++ [quote] else e).

Definition crlf : string := string_of_list_ascii [cr; lf].

Definition write_row (cells : list string) : string :=
  Js.join "," (map safe cells).

(** [Papa.unparse] of an array of arrays: no header line. *)
Definition unparse_rows (rows : list (list string)) : string :=
  Js.join crlf (map write_row rows).

(** [Papa.unparse] of an array of objects: the keys of the first object
    are the header line, each object contributes the cells under those
    keys. *)
Definition unparse_objects (keys : list string) (rows : list (list string))
  : string :=
  match keys with
  | [] => unparse_rows rows
  | _ => unparse_rows (keys :: rows)
  end.

End Papa.

(** ** [Promise.all] *)

Module Promise.
Section All.
Context {A : Type}.

(** The join's bookkeeping: one slot per input promise, filled when that
    promise fulfils; the count of slots still open; and the settlement
    of the aggregate promise once it has happened. *)
Record all_state : Type := AllState {
  values : list (option A);
  remaining : nat;
  settled : option (Js.completion (list A))
}.

(** No input promise: the aggregate fulfils at once with the empty
    array. *)
Definition all_start (n : nat) : all_state :=
  AllState (replicate n None) n
    (if (n =? 0)%nat then Some (Js.Normal []) else None).

(** Input promise [i] fulfils with [v]: the value lands in slot [i];
    filling the last open slot fulfils the aggregate with the slots in
    index order. *)
Definition fulfil_element (i : nat) (v : A) (st : all_state) : all_state :=
  match values st !! i with
  | Some None =>
      let vs := <[i := Some v]> (values st) in
      let k := pred (remaining st) in
      AllState vs k
        (match settled st with
         | Some s => Some s
         | None => if (k =? 0)%nat then Some (Js.Normal (omap id vs)) else None
         end)
  | _ => st
  end.

(** An input promise rejects: the aggregate rejects with that reason
    unless it is settled already. *)
Definition reject_element (e : Js.error) (st : all_state) : all_state :=
  match settled st with
  | Some _ => st
  | None => AllState (values st) (remaining st) (Some (Js.Throw e))
  end.

Definition settle_element (i : nat) (r : Js.completion A) (st : all_state)
  : all_state :=
  match r with
  | Js.Normal v => fulfil_element i v st
  | Js.Throw e => reject_element e st
  end.

(** [Promise.all(promises)] where the input promises settle in the order
    [order] lists their indices.  An index that names no promise, or one
    that settled before, changes nothing. *)
Definition all (promises : list (Js.completion A)) (order : list nat)
  : all_state :=
  fold_left
    (fun st i =>
       match promises !! i with
       | Some r => settle_element i r st
       | None => st
       end)
    order (all_start (length promises)).

End All.
Arguments all_state A : clear implicits.
End Promise.

(** ** The component *)

Record CsvRow : Type := {
  firstname : string;
  lastname : string;
  username : string;
  uid : Js.number;
  password : string;
  email : string;
  membershipplanid : Js.number
}.

(** [ExtendedCsvRow]: the fields of a [CsvRow] and [activationStatus]. *)
Record ExtendedCsvRow : Type := {
  base : CsvRow;
  activationStatus : string
}.

(** What a zod issue carries as far as the component reads it. *)
Record ZodIssue : Type := {
  path : list string;
  message : string
}.

Inductive parsed (A : Type) : Type :=
  | Valid (a : A)
  | Invalid (issues : list ZodIssue).
Arguments Valid {A} a.
Arguments Invalid {A} issues.

Definition issues_of {A} (r : parsed A) : list ZodIssue :=
  match r with
  | Valid _ => []
  | Invalid l => l
  end.

(** [SafeParseReturnType]: [{success: true, data}] or
    [{success: false, error}] with [error.errors]. *)
Inductive SafeParseReturn : Type :=
  | Success (data : CsvRow)
  | Failure (errors : list ZodIssue).

(** How a request settles: [fetch] rejects, or it resolves to a response
    whose [json()] rejects or resolves to a parsed value. *)
Inductive body_outcome : Type :=
  | NotJson
  | Json (j : Js.json).

Inductive fetch_outcome : Type :=
  | NetworkFailure
  | Response (b : body_outcome).

(** The retained state of [CsvFileUploader]; [fileInput] is the value of
    the file input behind [fileInputRef], when the ref is attached. *)
Record State : Type := {
  validatedData : list ExtendedCsvRow;
  errors : list string;
  loading : bool;
  fileInput : option string
}.

Definition initial : State := {|
  validatedData := [];
  errors := [];
  loading := false;
  fileInput := Some EmptyString
|}.

(** The state after a handler and the URLs it requested, in call
    order. *)
Record Outcome : Type := {
  state : State;
  requests : list string
}.

(** The part of the browser the download handlers touch: the store of
    object URLs, the children of [document.body], and the downloads that
    clicks have started. *)
Record Blob : Type := {
  blob_text : string;
  blob_type : string
}.

Record Anchor : Type := {
  node : nat;
  href : nat;
  download : string
}.

Record Browser : Type := {
  objectURLs : gmap nat Blob;
  next_url : nat;
  next_node : nat;
  body_children : list Anchor;
  downloads : list (string * nat)
}.

Definition fresh_browser : Browser := {|
  objectURLs := ∅;
  next_url := 0;
  next_node := 0;
  body_children := [];
  downloads := []
|}.

(** [URL.createObjectURL(blob)]: a new entry in the store, returned as
    its handle. *)
Definition createObjectURL (blob : Blob) (b : Browser) : nat * Browser :=
  (next_url b,
   {| objectURLs := <[next_url b := blob]> (objectURLs b);
      next_url := S (next_url b);
      next_node := next_node b;
      body_children := body_children b;
      downloads := downloads b |}).

(** [document.createElement("a")] with [href] and [download] set. *)
Definition createAnchor (url : nat) (name : string) (b : Browser)
  : Anchor * Browser :=
  ({| node := next_node b; href := url; download := name |},
   {| objectURLs := objectURLs b;
      next_url := next_url b;
      next_node := S (next_node b);
      body_children := body_children b;
      downloads := downloads b |}).

Definition appendChild (link : Anchor) (b : Browser) : Browser :=
  {| objectURLs := objectURLs b;
     next_url := next_url b;
     next_node := next_node b;
     body_children := body_children b ++ [link];
     downloads := downloads b |}.

(** [link.click()] on an anchor with a [download] attribute. *)
Definition click (link : Anchor) (b : Browser) : Browser :=
  {| objectURLs := objectURLs b;
     next_url := next_url b;
     next_node := next_node b;
     body_children := body_children b;
     downloads := downloads b ++ [(download link, href link)] |}.

Definition removeChild (link : Anchor) (b : Browser) : Browser :=
  {| objectURLs := objectURLs b;
     next_url := next_url b;
     next_node := next_node b;
     body_children :=
       List.filter (fun a => negb (node a =? node link)%nat) (body_children b);
     downloads := downloads b |}.

(** The download sequence both handlers share (lines 125-133 and
    139-147): blob, object URL, hidden link, click, link removed. *)
Definition download_csv (csv name : string) (b : Browser) : Browser :=
  let blob := {| blob_text := csv; blob_type := "text/csv;charset=utf-8;" |} in
  let '(url, b) := createObjectURL blob b in
  let '(link, b) := createAnchor url name b in
  let b := appendChild link b in
  let b := click link b in
  removeChild link b.

(** [Array.prototype.forEach], threading the state its callback
    mutates. *)
Fixpoint forEach {A St : Type} (f : St -> A -> nat -> St) (l : list A)
    (index : nat) (s : St) : St :=
  match l with
  | [] => s
  | x :: rest => forEach f rest (S index) (f s x index)
  end.

Definition expectedHeaders : list string :=
  ["firstname"; "lastname"; "username"; "uid"; "password"; "email";
   "membershipplanid"].

(** Two library constants the component relies on: the pattern behind
    [z.string().email()], fixed by the zod release in use, and
    [Number.prototype.toString], as template literals and [Papa.unparse]
    apply it to [uid] and [membershipplanid]. *)
Class Library : Type := {
  email_pattern : string -> bool;
  Number_toString : Js.number -> string
}.

Section Uploader.
Context {lib : Library}.

(** *** [csvSchema] (lines 19-29) *)

Definition issue (key msg : string) : ZodIssue :=
  {| path := [key]; message := msg |}.

(** [z.string()] on the property under [key]. *)
Definition z_string (key : string) (v : option string) : parsed string :=
  match v with
  | Some s => Valid s
  | None => Invalid [issue key "Required"]
  end.

(** [.nonempty(msg)], that is [.min(1, msg)] on the length. *)
Definition nonempty (msg key : string) (r : parsed string) : parsed string :=
  match r with
  | Valid s =>
      if (String.length s <? 1)%nat then Invalid [issue key msg] else Valid s
  | Invalid l => Invalid l
  end.

(** [.email(msg)]. *)
Definition z_email (msg key : string) (r : parsed string) : parsed string :=
  match r with
  | Valid s => if email_pattern s then Valid s else Invalid [issue key msg]
  | Invalid l => Invalid l
  end.

(** [z.coerce.number()]: [Number(input)], then the number type check,
    which does not take [NaN] for a number. *)
Definition z_coerce_number (key : string) (v : option string)
  : parsed Js.number :=
  let n := Js.Number_of_prop v in
  if Js.isNaN n then Invalid [issue key "Expected number, received nan"]
  else Valid n.

(** [.refine(check, {message})]: runs on a value that parsed. *)
Definition refine (check : Js.number -> bool) (msg key : string)
    (r : parsed Js.number) : parsed Js.number :=
  match r with
  | Valid n => if check n then Valid n else Invalid [issue key msg]
  | Invalid l => Invalid l
  end.

Definition parse_firstname (row : gmap string string) : parsed string :=
  nonempty "First name is required" "firstname"
    (z_string "firstname" (row !! "firstname")).

Definition parse_lastname (row : gmap string string) : parsed string :=
  nonempty "Last name is required" "lastname"
    (z_string "lastname" (row !! "lastname")).

Definition parse_username (row : gmap string string) : parsed string :=
  nonempty "Username is required" "username"
    (z_string "username" (row !! "username")).

Definition parse_uid (row : gmap string string) : parsed Js.number :=
  refine (fun val => negb (Js.isNaN val)) "UID must be a number" "uid"
    (z_coerce_number "uid" (row !! "uid")).

Definition parse_password (row : gmap string string) : parsed string :=
  nonempty "Password is required" "password"
    (z_string "password" (row !! "password")).

Definition parse_email (row : gmap string string) : parsed string :=
  z_email "Invalid email format" "email" (z_string "email" (row !! "email")).

Definition parse_membershipplanid (row : gmap string string)
  : parsed Js.number :=
  refine (fun val => negb (Js.isNaN val))
    "Membership Plan id must be a number" "membershipplanid"
    (z_coerce_number "membershipplanid" (row !! "membershipplanid")).

(** [csvSchema.safeParse(row)]: every key of the shape is parsed, in the
    order the shape lists them; the parse succeeds when none raised an
    issue and otherwise reports all of them. *)
Definition safeParse (row : gmap string string) : SafeParseReturn :=
  match parse_firstname row, parse_lastname row, parse_username row,
        parse_uid row, parse_password row, parse_email row,
        parse_membershipplanid row with
  | Valid f, Valid l, Valid u, Valid i, Valid p, Valid e, Valid m =>
      Success {| firstname := f; lastname := l; username := u; uid := i;
                 password := p; email := e; membershipplanid := m |}
  | f, l, u, i, p, e, m =>
      Failure (issues_of f ++ issues_of l ++ issues_of u ++ issues_of i
               ++ issues_of p ++ issues_of e ++ issues_of m)
  end.

(** *** [handleClear] (lines 38-45) *)

Definition handleClear (st : State) : State :=
  {| validatedData := [];
     errors := [];
     loading := loading st;
     fileInput :=
       match fileInput st with
       | Some _ => Some EmptyString
       | None => None
       end |}.

(** *** [fetchActivationStatusForRow] (lines 48-59) *)

Definition apiUrl (row : CsvRow) : string :=
  "/api/?ihc_action=api-gate&ihch=F4ARzxSFjQpZxqjt5jiJn7HlXqMu23Y&action=user_add_level&uid="
  +:+ Number_toString (uid row) +:+ "&lid="
  +:+ Number_toString (membershipplanid row).

Definition await_fetch (o : fetch_outcome) : Js.completion body_outcome :=
  match o with
  | NetworkFailure => Js.Throw (Js.TypeError "Failed to fetch")
  | Response b => Js.Normal b
  end.

Definition await_json (b : body_outcome) : Js.completion Js.json :=
  match b with
  | NotJson => Js.Throw (Js.SyntaxError "Unexpected token")
  | Json j => Js.Normal j
  end.

(** The [try] block. *)
Definition lookup_body (row : CsvRow) (o : fetch_outcome)
  : Js.completion ExtendedCsvRow :=
  response ← await_fetch o;
  result ← await_json response;
  answer ← Js.get result "response";
  let status := if Js.is_true answer then "Activated" else "Inactive" in
  mret {| base := row; activationStatus := status |}.

(** How the promise returned by the function settles when the request
    for [row] settles as [o]. *)
Definition fetchActivationStatusForRow (row : CsvRow) (o : fetch_outcome)
  : Js.completion ExtendedCsvRow :=
  Js.try_catch (lookup_body row o)
    (fun _ => Js.Normal {| base := row; activationStatus := "Error" |}).

(** What the [catch] block logs. *)
Definition lookup_logged (row : CsvRow) (o : fetch_outcome) : list Js.error :=
  match lookup_body row o with
  | Js.Normal _ => []
  | Js.Throw e => [e]
  end.

(** *** The [complete] callback of [handleFileUpload] (lines 70-113) *)

Definition header_matches (fields : option (list string)) : bool :=
  match fields with
  | None => false
  | Some f => String.eqb (Js.join "," f) (Js.join "," expectedHeaders)
  end.

Definition header_error : string :=
  "CSV header does not match expected order. Expected: "
  +:+ Js.join ", " expectedHeaders.

Definition row_error (index : nat) (err : ZodIssue) : string :=
  "Row " +:+ Js.nat_toString (index + 1) +:+ " - "
  +:+ Js.join " " (path err) +:+ ": " +:+ message err.

(** The callback of [data.forEach] (lines 90-100), acting on
    [validRows] and [errorList]. *)
Definition validate_row (acc : list CsvRow * list string)
    (row : gmap string string) (index : nat) : list CsvRow * list string :=
  match safeParse row with
  | Success data => (acc.1 ++ [data], acc.2)
  | Failure errs => (acc.1, acc.2 ++ map (row_error index) errs)
  end.

Definition validate_rows (data : list (gmap string string))
  : list CsvRow * list string :=
  forEach validate_row data 0 ([], []).

(** The promises [validRows.map(fetchActivationStatusForRow)] creates:
    the [i]-th call issues the [i]-th request, which settles as
    [net i]. *)
Definition lookups (net : nat -> fetch_outcome) (validRows : list CsvRow)
  : list (Js.completion ExtendedCsvRow) :=
  imap (fun i row => fetchActivationStatusForRow row (net i)) validRows.

Definition set_errors (l : list string) (st : State) : State :=
  {| validatedData := validatedData st; errors := l;
     loading := loading st; fileInput := fileInput st |}.

Definition set_validatedData (l : list ExtendedCsvRow) (st : State) : State :=
  {| validatedData := l; errors := errors st;
     loading := loading st; fileInput := fileInput st |}.

Definition set_loading (b : bool) (st : State) : State :=
  {| validatedData := validatedData st; errors := errors st;
     loading := b; fileInput := fileInput st |}.

(** [net] says how each request settles and [order] in which order the
    lookups complete; a lookup that [order] leaves out has not completed,
    and the callback then still waits at [await Promise.all].  The
    requests themselves are all issued by [validRows.map] before the
    first [await]. *)
Definition complete (results : Papa.results) (net : nat -> fetch_outcome)
    (order : list nat) (st : State) : Outcome :=
  if negb (header_matches (Papa.meta_fields results)) then
    {| state := set_validatedData [] (set_errors [header_error] st);
       requests := [] |}
  else
    let '(validRows, errorList) := validate_rows (Papa.data results) in
    let st := set_loading true (set_errors errorList st) in
    let joined := Promise.all (lookups net validRows) order in
    {| state :=
         match Promise.settled joined with
         | Some (Js.Normal extendedRows) =>
             set_loading false (set_validatedData extendedRows st)
         | Some (Js.Throw _) => set_loading false st
         | None => st
         end;
       requests := map apiUrl validRows |}.

(** [handleFileUpload]: nothing happens without a file; otherwise its
    text goes through [Papa.parse] to [complete]. *)
Definition handleFileUpload (d : Papa.dialect) (file : option string)
    (net : nat -> fetch_outcome) (order : list nat) (st : State) : Outcome :=
  match file with
  | None => {| state := st; requests := [] |}
  | Some csvString => complete (Papa.parse d csvString) net order st
  end.

(** *** The download handlers (lines 122-148) *)

Definition header_csv : string := Papa.unparse_rows [expectedHeaders].

Definition handleDownloadHeaderCSV (b : Browser) : Browser :=
  download_csv header_csv "csv_header_format.csv" b.

Definition report_keys : list string :=
  expectedHeaders ++ ["activationStatus"].

Definition report_cells (r : ExtendedCsvRow) : list string :=
  [firstname (base r); lastname (base r); username (base r);
   Number_toString (uid (base r)); password (base r); email (base r);
   Number_toString (membershipplanid (base r)); activationStatus r].

Definition report_csv (rows : list ExtendedCsvRow) : string :=
  Papa.unparse_objects report_keys (map report_cells rows).

Definition handleDownloadCSV (st : State) (b : Browser) : Browser :=
  if (length (validatedData st) =? 0)%nat then b
  else download_csv (report_csv (validatedData st)) "activation_results.csv" b.

(** *** What the component renders (lines 150-247)

    The upload section (file input and header-download button) is
    always there; the view records the parts that depend on the state. *)

(** The [color] of the status cell (lines 227-232). *)
Definition status_color (status : string) : string :=
  if String.eqb status "Activated" then "green"
  else if String.eqb status "Inactive" then "red"
  else "inherit".

(** One [<tr>] of the result table: the text of its eight cells and the
    colour of the last one. *)
Record ResultRow : Type := {
  cells : list string;
  color : string
}.

Record View : Type := {
  clear_button : bool;
  download_button : bool;
  error_section : option (list string);
  loading_image : bool;
  result_table : option (list ResultRow)
}.

Definition render_row (row : ExtendedCsvRow) : ResultRow :=
  {| cells :=
       [firstname (base row); lastname (base row); username (base row);
        Number_toString (uid (base row)); password (base row);
        email (base row); Number_toString (membershipplanid (base row));
        activationStatus row];
     color := status_color (activationStatus row) |}.

(** Each error is shown as the text of one paragraph, [<p> {err}</p>]: a
    space, then the error. *)
Definition render (st : State) : View :=
  let has_rows := (0 <? length (validatedData st))%nat in
  let has_errors := (0 <? length (errors st))%nat in
  {| clear_button := has_rows || has_errors;
     download_button := has_rows && negb (loading st);
     error_section :=
       if has_errors then Some (map (fun err => " " +:+ err) (errors st))
       else None;
     loading_image := loading st;
     result_table :=
       if has_rows && negb (loading st)
       then Some (map render_row (validatedData st))
       else None |}.

(** *** The component as a transition system *)

Inductive event : Type :=
  | ClearClicked
  | FileChosen (d : Papa.dialect) (file : option string)
      (net : nat -> fetch_outcome) (order : list nat)
  | DownloadHeaderClicked
  | DownloadResultClicked.

Definition handle (ev : event) (w : State * Browser) : State * Browser :=
  match ev with
  | ClearClicked => (handleClear w.1, w.2)
  | FileChosen d file net order =>
      (state (handleFileUpload d file net order w.1), w.2)
  | DownloadHeaderClicked => (w.1, handleDownloadHeaderCSV w.2)
  | DownloadResultClicked => (w.1, handleDownloadCSV w.1 w.2)
  end.

Definition run (evs : list event) (w : State * Browser) : State * Browser :=
  fold_left (fun w ev => handle ev w) evs w.

End Uploader.

(** ** Vocabulary of the properties *)

(** The issues a parse reported ([[]] when it succeeded). *)
Definition errors_of (r : SafeParseReturn) : list ZodIssue :=
  match r with
  | Success _ => []
  | Failure errs => errs
  end.

Definition data_of (r : SafeParseReturn) : option CsvRow :=
  match r with
  | Success d => Some d
  | Failure _ => None
  end.

(** The validator fails the field [key]. *)
Definition fails_on (key : string) (r : SafeParseReturn) : Prop :=
  ∃ i, i ∈ errors_of r ∧ path i = [key].

(** The payload's [response] member is [true]. *)
Definition affirmative (j : Js.json) : bool :=
  match j with
  | Js.JObject members =>
      match Js.assoc "response" members with
      | Some (Js.JBool true) => true
      | _ => false
      end
  | _ => false
  end.

(** The status the three cases of the lookup contract assign. *)
Definition expected_status (o : fetch_outcome) : string :=
  match o with
  | NetworkFailure => "Error"
  | Response NotJson => "Error"
  | Response (Json Js.JNull) => "Error"
  | Response (Json j) => if affirmative j then "Activated" else "Inactive"
  end.

Definition annotate (row : CsvRow) (o : fetch_outcome) : ExtendedCsvRow :=
  {| base := row; activationStatus := expected_status o |}.

Definition status_ok (r : ExtendedCsvRow) : Prop :=
  activationStatus r = "Activated" ∨ activationStatus r = "Inactive"
  ∨ activationStatus r = "Error".

(** Slots of a join that are still open. *)
Fixpoint open_slots {A} (l : list (option A)) : nat :=
  match l with
  | [] => 0
  | None :: r => S (open_slots r)
  | Some _ :: r => open_slots r
  end.

(** The slots once the promises whose indices are in [seen] have
    fulfilled with the values [vs]. *)
Definition slots_of {A} (seen : list nat) (vs : list A) : list (option A) :=
  imap (fun i v => if decide (i ∈ seen) then Some v else None) vs.

Record all_inv {A} (vs : list A) (seen : list nat) (st : Promise.all_state A)
  : Prop := AllInv {
  inv_values : Promise.values st = slots_of seen vs;
  inv_remaining : Promise.remaining st = open_slots (Promise.values st);
  inv_settled :
    Promise.settled st
    = if (Promise.remaining st =? 0)%nat then Some (Js.Normal vs) else None
}.

(** Stand-ins for the two library constants in concrete evaluations: a
    pattern that takes any text holding an [@], and a rendering of the
    non-negative integers. *)
Definition sample_pattern (s : string) : bool :=
  match index 0 "@" s with
  | Some _ => true
  | None => false
  end.

Definition sample_toString (n : Js.number) : string :=
  match n with
  | Js.Finite false m 0 => Js.nat_toString (Z.to_nat m)
  | _ => "NaN"
  end.

Definition sample_library : Library := {|
  email_pattern := sample_pattern;
  Number_toString := sample_toString
|}.

Definition quoted (s : string) : string :=
  String Papa.quote (s +:+ String Papa.quote EmptyString).

Definition line_feed : string := String Papa.lf EmptyString.

(** An InputRecord: the row object of a data line that has a cell under
    each of the seven expected names. *)
Definition input_record (f l u i p e m : string) : gmap string string :=
  list_to_map
    [("firstname", f); ("lastname", l); ("username", u); ("uid", i);
     ("password", p); ("email", e); ("membershipplanid", m)].

(** A header line whose first cell is the quoted text
    [firstname,lastname], alone and followed by one data line. *)
Definition quoted_header : string :=
  quoted "firstname,lastname"
  +:+ ",username,uid,password,email,membershipplanid".

Definition quoted_header_upload : string :=
  quoted_header +:+ line_feed +:+ "x,annlee,7,secret,ann@example.org,3".

Definition csv_blob (csv : string) : Blob :=
  {| blob_text := csv; blob_type := "text/csv;charset=utf-8;" |}.

(** A well-formed upload of two rows, a network in which the first
    request is answered with [{response: true}] and every other request
    fails, and a state that already holds a result. *)
Definition sample_upload : string :=
  "firstname,lastname,username,uid,password,email,membershipplanid"
  +:+ line_feed +:+ "Ann,Lee,annlee,7,secret,ann@example.org,3"
  +:+ line_feed +:+ "Bob,Ray,bobray,8,hidden,bob@example.org,4"
  +:+ line_feed.

Definition sample_net (i : nat) : fetch_outcome :=
  match i with
  | O => Response (Json (Js.JObject [("response", Js.JBool true)]))
  | _ => NetworkFailure
  end.

Definition sample_row : CsvRow := {|
  firstname := "Ann"; lastname := "Lee"; username := "annlee";
  uid := Js.Finite false 7 0; password := "secret";
  email := "ann@example.org"; membershipplanid := Js.Finite false 3 0
|}.

Definition sample_state : State := {|
  validatedData := [{| base := sample_row; activationStatus := "Inactive" |}];
  errors := [];
  loading := false;
  fileInput := Some "members.csv"
|}.

(** No comma in the text. *)
Definition comma_free (s : string) : bool :=
  negb (existsb (Ascii.eqb ","%char) (list_ascii_of_string s)).

(** The page a browser is in after some handlers have run: link nodes
    and object URLs were numbered below the next free number. *)
Definition browser_ok (b : Browser) : Prop :=
  Forall (fun a => (node a < next_node b)%nat) (body_children b)
  ∧ ∀ k, (next_url b ≤ k)%nat → objectURLs b !! k = None.

(** Only white space in the text. *)
Definition blank (s : string) : bool :=
  forallb Js.is_space (list_ascii_of_string s).

(** The comma-separated text with CRLF line breaks that [Papa.unparse]
    writes. *)
Definition comma_crlf : Papa.dialect := Papa.Dialect ","%char Papa.CRLF.

(** ** Properties of [Promise.all] *)

Section AllFacts.
Context {A : Type}.
Implicit Types (vs : list A) (seen order : list nat) (l : list (option A)).

Lemma open_slots_replicate n : open_slots (replicate n (@None A)) = n.
Proof. induction n as [|n IH]; simpl; congruence. Qed.

Lemma open_slots_lookup l i : l !! i = Some None → (0 < open_slots l)%nat.
Proof.
  revert i. induction l as [|[a|] l IH]; intros [|i] H; simpl in *;
    try discriminate; try lia; eauto.
Qed.

Lemma open_slots_insert l i (v : A) :
  l !! i = Some None → open_slots (<[i := Some v]> l) = pred (open_slots l).
Proof.
  revert i. induction l as [|[a|] l IH]; intros [|i] H; simpl in *;
    try discriminate; try reflexivity.
  - by apply IH.
  - rewrite (IH i H). pose proof (open_slots_lookup l i H). lia.
Qed.

Lemma slots_of_lookup seen vs i :
  slots_of seen vs !! i
  = (fun v => if decide (i ∈ seen) then Some v else None) <$> vs !! i.
Proof. unfold slots_of. by rewrite list_lookup_imap. Qed.

Lemma slots_of_nil vs : slots_of [] vs = replicate (length vs) None.
Proof.
  apply list_eq. intros i. rewrite slots_of_lookup.
  destruct (vs !! i) as [v|] eqn:E; simpl.
  - symmetry. apply lookup_replicate_2. by eapply lookup_lt_Some.
  - symmetry. apply lookup_ge_None. rewrite length_replicate.
    by apply lookup_ge_None.
Qed.

Lemma slots_of_seen_again seen vs i :
  i ∈ seen ∨ vs !! i = None → slots_of (i :: seen) vs = slots_of seen vs.
Proof.
  intros H. apply list_eq. intros j. rewrite !slots_of_lookup.
  destruct (vs !! j) as [v|] eqn:E; simpl; [|done].
  destruct (decide (j ∈ seen)) as [Hj|Hj].
  - rewrite decide_True; [done|]. by apply elem_of_cons; right.
  - rewrite decide_False; [done|]. intros [->|?]%elem_of_cons; [|done].
    destruct H as [?|H]; [done|congruence].
Qed.

Lemma slots_of_fresh seen vs i v :
  i ∉ seen → vs !! i = Some v →
  slots_of (i :: seen) vs = <[i := Some v]> (slots_of seen vs).
Proof.
  intros Hi Hv. apply list_eq. intros j. rewrite slots_of_lookup.
  destruct (decide (i = j)) as [<-|Hne].
  - rewrite list_lookup_insert_eq.
    + rewrite Hv. simpl. rewrite decide_True; [done|]. by apply elem_of_cons; left.
    + unfold slots_of. rewrite length_imap. by eapply lookup_lt_Some.
  - rewrite list_lookup_insert_ne by done. rewrite slots_of_lookup.
    destruct (vs !! j) as [w|]; simpl; [|done].
    destruct (decide (j ∈ seen)) as [Hj|Hj].
    + rewrite decide_True; [done|]. by apply elem_of_cons; right.
    + rewrite decide_False; [done|]. intros [->|?]%elem_of_cons; done.
Qed.

Lemma slots_all_filled seen vs :
  open_slots (slots_of seen vs) = 0%nat → slots_of seen vs = Some <$> vs.
Proof.
  intros H. apply list_eq. intros i. rewrite list_lookup_fmap.
  pose proof (slots_of_lookup seen vs i) as E. rewrite E.
  destruct (vs !! i) as [v|]; simpl in *; [|done].
  destruct (decide (i ∈ seen)); [done|].
  apply open_slots_lookup in E. lia.
Qed.

Lemma omap_id_Some vs : omap id (Some <$> vs) = vs.
Proof. induction vs as [|v vs IH]; [done|]. csimpl. by rewrite IH. Qed.

Lemma slots_of_covered seen vs :
  (∀ i, (i < length vs)%nat → i ∈ seen) → slots_of seen vs = Some <$> vs.
Proof.
  intros H. apply list_eq. intros i. rewrite list_lookup_fmap, slots_of_lookup.
  destruct (vs !! i) as [v|] eqn:E; simpl; [|done].
  rewrite decide_True; [done|]. apply H. by eapply lookup_lt_Some.
Qed.

Lemma open_slots_Some vs : open_slots (Some <$> vs) = 0%nat.
Proof. induction vs; simpl; auto. Qed.

Lemma all_inv_start vs : all_inv vs [] (Promise.all_start (length vs)).
Proof.
  split; simpl.
  - symmetry. apply slots_of_nil.
  - symmetry. apply open_slots_replicate.
  - destruct vs; reflexivity.
Qed.

(** One settlement keeps the bookkeeping in step with the set of
    promises that have fulfilled. *)
Lemma all_inv_step vs seen st i :
  all_inv vs seen st →
  all_inv vs (i :: seen)
    (match (Js.Normal <$> vs) !! i with
     | Some r => Promise.settle_element i r st
     | None => st
     end).
Proof.
  intros [Hv Hr Hs]. rewrite list_lookup_fmap.
  destruct (vs !! i) as [v|] eqn:E; simpl.
  - unfold Promise.fulfil_element. rewrite Hv, slots_of_lookup, E. simpl.
    destruct (decide (i ∈ seen)) as [Hi|Hi].
    + split; [|done..]. rewrite Hv. symmetry. apply slots_of_seen_again. by left.
    + assert (Hopen : Promise.values st !! i = Some None).
      { rewrite Hv, slots_of_lookup, E. simpl. by rewrite decide_False. }
      pose proof (open_slots_lookup _ _ Hopen) as Hpos.
      pose proof (open_slots_insert _ _ v Hopen) as Hins.
      rewrite <- Hv. split; simpl.
      * rewrite Hv. symmetry. by apply slots_of_fresh.
      * rewrite Hins. by rewrite Hr.
      * rewrite Hs. replace (Promise.remaining st =? 0)%nat with false
          by (symmetry; apply Nat.eqb_neq; lia).
        destruct (pred (Promise.remaining st) =? 0)%nat eqn:Hk; [|done].
        apply Nat.eqb_eq in Hk.
        rewrite Hv, <- (slots_of_fresh seen vs i v Hi E).
        rewrite slots_all_filled, omap_id_Some; [done|].
        rewrite (slots_of_fresh seen vs i v Hi E), <- Hv, Hins. lia.
  - split; [|done..]. rewrite Hv. symmetry. apply slots_of_seen_again. by right.
Qed.

Lemma all_inv_run vs order seen st :
  all_inv vs seen st →
  all_inv vs (reverse order ++ seen)
    (fold_left
       (fun st i =>
          match (Js.Normal <$> vs) !! i with
          | Some r => Promise.settle_element i r st
          | None => st
          end) order st).
Proof.
  revert seen st. induction order as [|i order IH]; intros seen st H; simpl.
  - done.
  - rewrite reverse_cons, <- app_assoc. simpl. apply IH. by apply all_inv_step.
Qed.

(** When no input promise rejects, the aggregate is either still pending
    or fulfilled with the values in index order, whatever the order of
    the settlements. *)
Lemma all_pending_or_in_order vs order :
  Promise.settled (Promise.all (Js.Normal <$> vs) order) = None
  ∨ Promise.settled (Promise.all (Js.Normal <$> vs) order)
    = Some (Js.Normal vs).
Proof.
  unfold Promise.all. rewrite length_fmap.
  destruct (all_inv_run vs order [] _ (all_inv_start vs)) as [_ _ Hs].
  rewrite Hs. destruct (_ =? _)%nat; auto.
Qed.

(** Once every input promise has settled, it is fulfilled. *)
Lemma all_in_order vs order :
  (∀ i, (i < length vs)%nat → i ∈ order) →
  Promise.settled (Promise.all (Js.Normal <$> vs) order) = Some (Js.Normal vs).
Proof.
  intros Hcov. unfold Promise.all. rewrite length_fmap.
  destruct (all_inv_run vs order [] _ (all_inv_start vs)) as [Hv Hr Hs].
  rewrite Hs, Hr, Hv, slots_of_covered, open_slots_Some; [done|].
  intros i Hi. rewrite app_nil_r. apply elem_of_reverse. by apply Hcov.
Qed.

End AllFacts.

(** ** Properties of the component *)

Section Properties.
Context {lib : Library}.

(** *** Activation lookup *)

Lemma lookup_settles row o :
  fetchActivationStatusForRow row o = Js.Normal (annotate row o).
Proof.
  unfold fetchActivationStatusForRow, lookup_body, annotate.
  destruct o as [|[|j]]; try reflexivity.
  destruct j as [|b|n|s|items|members]; try reflexivity.
  simpl. unfold mbind, completion_bind, Js.bind, Js.get. simpl.
  destruct (Js.assoc "response" members) as [[|[]| | | |]|]; reflexivity.
Qed.

Lemma annotate_status_ok row o : status_ok (annotate row o).
Proof.
  unfold status_ok, annotate, expected_status. simpl.
  destruct o as [|[|j]]; auto.
  destruct j; try destruct (affirmative _); auto.
Qed.

Lemma lookup_body_raises row o e :
  lookup_body row o = Js.Throw e →
  o = NetworkFailure ∨ o = Response NotJson ∨ o = Response (Json Js.JNull).
Proof.
  destruct o as [|[|j]]; auto. destruct j as [|b|n|s|items|members]; auto;
    try discriminate.
  unfold lookup_body. simpl. unfold mbind, completion_bind, Js.bind, Js.get.
  simpl. destruct (Js.assoc "response" members); discriminate.
Qed.

(** C1: the lookup promise always fulfils, with the row it was given
    and a status; it never rejects.  A payload whose [response] member is
    [true] gives "Activated"; any other payload from which [response]
    can be read gives "Inactive"; a failed request, a body that is not
    JSON, or a [null] payload raise inside the [try] block, and every
    exception raised there is logged and turned into "Error". *)
Theorem lookup_always_resolves (row : CsvRow) (o : fetch_outcome) :
  (∃ status,
     fetchActivationStatusForRow row o
     = Js.Normal {| base := row; activationStatus := status |})
  ∧ (∀ j, o = Response (Json j) → affirmative j = true →
       fetchActivationStatusForRow row o
       = Js.Normal {| base := row; activationStatus := "Activated" |})
  ∧ (∀ j, o = Response (Json j) → j ≠ Js.JNull → affirmative j = false →
       fetchActivationStatusForRow row o
       = Js.Normal {| base := row; activationStatus := "Inactive" |})
  ∧ (∀ e, lookup_body row o = Js.Throw e →
       fetchActivationStatusForRow row o
       = Js.Normal {| base := row; activationStatus := "Error" |}
       ∧ lookup_logged row o = [e])
  ∧ (o = NetworkFailure ∨ o = Response NotJson ∨ o = Response (Json Js.JNull) →
       ∃ e, lookup_body row o = Js.Throw e).
Proof.
  rewrite lookup_settles. unfold annotate. repeat split.
  - eauto.
  - intros j -> Hj. simpl. destruct j; try discriminate. by rewrite Hj.
  - intros j -> Hnull Hj. simpl. destruct j; try done. by rewrite Hj.
  - apply lookup_body_raises in H as [->| [->| ->]]; reflexivity.
  - unfold lookup_logged. by rewrite H.
  - intros [->| [->| ->]]; simpl; eauto.
Qed.

(** *** Schema validator *)

Lemma safeParse_errors row :
  errors_of (safeParse row)
  = issues_of (parse_firstname row) ++ issues_of (parse_lastname row)
    ++ issues_of (parse_username row) ++ issues_of (parse_uid row)
    ++ issues_of (parse_password row)
    ++ issues_of (parse_email row)
    ++ issues_of (parse_membershipplanid row).
Proof.
  unfold safeParse.
  destruct (parse_firstname row), (parse_lastname row), (parse_username row),
    (parse_uid row), (parse_password row), (parse_email row),
    (parse_membershipplanid row); reflexivity.
Qed.

Lemma safeParse_success row f l u i p e m :
  parse_firstname row = Valid f → parse_lastname row = Valid l →
  parse_username row = Valid u → parse_uid row = Valid i →
  parse_password row = Valid p → parse_email row = Valid e →
  parse_membershipplanid row = Valid m →
  safeParse row
  = Success {| firstname := f; lastname := l; username := u; uid := i;
               password := p; email := e; membershipplanid := m |}.
Proof.
  intros Hf Hl Hu Hi Hp He Hm. unfold safeParse.
  by rewrite Hf, Hl, Hu, Hi, Hp, He, Hm.
Qed.

Lemma safeParse_success_inv row d :
  safeParse row = Success d →
  parse_firstname row = Valid (firstname d)
  ∧ parse_lastname row = Valid (lastname d)
  ∧ parse_username row = Valid (username d)
  ∧ parse_uid row = Valid (uid d)
  ∧ parse_password row = Valid (password d)
  ∧ parse_email row = Valid (email d)
  ∧ parse_membershipplanid row = Valid (membershipplanid d).
Proof.
  unfold safeParse.
  destruct (parse_firstname row), (parse_lastname row), (parse_username row),
    (parse_uid row), (parse_password row), (parse_email row),
    (parse_membershipplanid row); intros [= <-]; simpl; auto 10.
Qed.

(** Each key of the shape files its issues under its own path. *)
Lemma nonempty_paths msg key v i :
  i ∈ issues_of (nonempty msg key (z_string key v)) → path i = [key].
Proof.
  destruct v as [s|]; simpl; [destruct (_ <? _)%nat; simpl|];
    intros H; try (by apply elem_of_nil in H);
    by apply list_elem_of_singleton in H as ->.
Qed.

Lemma email_paths msg key v i :
  i ∈ issues_of (z_email msg key (z_string key v)) →
  path i = [key].
Proof.
  destruct v as [s|]; simpl; [destruct (email_pattern s); simpl|];
    intros H; try (by apply elem_of_nil in H);
    by apply list_elem_of_singleton in H as ->.
Qed.

Lemma number_paths check msg key v i :
  i ∈ issues_of (refine check msg key (z_coerce_number key v)) →
  path i = [key].
Proof.
  unfold z_coerce_number. destruct (Js.isNaN _); simpl;
    [|destruct (check _); simpl];
    intros H; try (by apply elem_of_nil in H);
    by apply list_elem_of_singleton in H as ->.
Qed.

Ltac other_path H :=
  first [ apply nonempty_paths in H | apply email_paths in H
        | apply number_paths in H ]; congruence.

(** The validator fails a key exactly when that key's own parser raised
    an issue. *)
Lemma fails_on_field row :
  (fails_on "firstname" (safeParse row) ↔ issues_of (parse_firstname row) ≠ [])
  ∧ (fails_on "lastname" (safeParse row) ↔ issues_of (parse_lastname row) ≠ [])
  ∧ (fails_on "username" (safeParse row) ↔ issues_of (parse_username row) ≠ [])
  ∧ (fails_on "uid" (safeParse row) ↔ issues_of (parse_uid row) ≠ [])
  ∧ (fails_on "password" (safeParse row) ↔ issues_of (parse_password row) ≠ [])
  ∧ (fails_on "membershipplanid" (safeParse row)
     ↔ issues_of (parse_membershipplanid row) ≠ []).
Proof.
  unfold fails_on. rewrite safeParse_errors.
  repeat split.
  all: try (intros (i & Hin & Hp) Hnil;
    rewrite !elem_of_app in Hin;
    destruct Hin as [H|[H|[H|[H|[H|[H|H]]]]]];
    first [ by (rewrite Hnil in H; apply elem_of_nil in H)
          | other_path H ]).
  - intros Hne. destruct (issues_of (parse_firstname row)) as [|i l] eqn:E; [done|].
    exists i. split; [set_solver|]. eapply nonempty_paths. unfold parse_firstname in E. rewrite E. set_solver.
  - intros Hne. destruct (issues_of (parse_lastname row)) as [|i l] eqn:E; [done|].
    exists i. split; [set_solver|]. eapply nonempty_paths. unfold parse_lastname in E. rewrite E. set_solver.
  - intros Hne. destruct (issues_of (parse_username row)) as [|i l] eqn:E; [done|].
    exists i. split; [set_solver|]. eapply nonempty_paths. unfold parse_username in E. rewrite E. set_solver.
  - intros Hne. destruct (issues_of (parse_uid row)) as [|i l] eqn:E; [done|].
    exists i. split; [set_solver|]. eapply number_paths. unfold parse_uid in E. rewrite E. set_solver.
  - intros Hne. destruct (issues_of (parse_password row)) as [|i l] eqn:E; [done|].
    exists i. split; [set_solver|]. eapply nonempty_paths. unfold parse_password in E. rewrite E. set_solver.
  - intros Hne. destruct (issues_of (parse_membershipplanid row)) as [|i l] eqn:E; [done|].
    exists i. split; [set_solver|]. eapply number_paths. unfold parse_membershipplanid in E. rewrite E. set_solver.
Qed.

Lemma nonempty_issues msg key s :
  issues_of (nonempty msg key (z_string key (Some s)))
  = if decide (s = EmptyString) then [issue key msg] else [].
Proof. destruct s; reflexivity. Qed.

Lemma nonempty_valid msg key s :
  s ≠ EmptyString → nonempty msg key (z_string key (Some s)) = Valid s.
Proof. destruct s; [done|reflexivity]. Qed.

Lemma number_issues check msg key v :
  check = (fun val => negb (Js.isNaN val)) →
  issues_of (refine check msg key (z_coerce_number key v)) ≠ []
  ↔ Js.isNaN (Js.Number_of_prop v) = true.
Proof.
  intros ->. unfold z_coerce_number.
  destruct (Js.isNaN (Js.Number_of_prop v)) eqn:E; simpl.
  - split; [done|]. intros _. discriminate.
  - rewrite E. simpl. split; [done|discriminate].
Qed.

Lemma number_valid check msg key v :
  check = (fun val => negb (Js.isNaN val)) →
  Js.isNaN (Js.Number_of_prop v) = false →
  refine check msg key (z_coerce_number key v) = Valid (Js.Number_of_prop v).
Proof.
  intros -> E. unfold z_coerce_number. rewrite E. simpl. by rewrite E.
Qed.

Lemma number_valid_inv check msg key v n :
  refine check msg key (z_coerce_number key v) = Valid n →
  n = Js.Number_of_prop v.
Proof.
  unfold z_coerce_number. destruct (Js.isNaN _); simpl; [discriminate|].
  destruct (check _); [|discriminate]. by intros [= <-].
Qed.

Lemma text_field_rule key msg (parse : gmap string string → parsed string)
    (row : gmap string string) (s : string) :
  parse row = nonempty msg key (z_string key (row !! key)) →
  (fails_on key (safeParse row) ↔ issues_of (parse row) ≠ []) →
  (∀ i, i ∈ issues_of (parse row) → i ∈ errors_of (safeParse row)) →
  row !! key = Some s →
  (fails_on key (safeParse row) ↔ s = EmptyString)
  ∧ (issue key msg ∈ errors_of (safeParse row) ↔ s = EmptyString).
Proof.
  intros Hparse Hfails Hin Hs.
  rewrite Hparse, Hs, nonempty_issues in Hfails.
  rewrite Hparse, Hs, nonempty_issues in Hin.
  assert (Hiff : fails_on key (safeParse row) ↔ s = EmptyString).
  { rewrite Hfails. destruct (decide (s = EmptyString)); split; done. }
  split; [done|]. split.
  - intros H. apply Hiff. by exists (issue key msg).
  - intros E. apply Hin. rewrite decide_True by done. constructor.
Qed.

(** C2, as the code has it: [nonempty] looks at the length of the text
    as it stands, nothing trims it.  A field of [firstname], [lastname],
    [username], [password] that is present fails exactly when its text is
    the empty string, and then with the field's own message; text made
    of white space passes. *)
Theorem text_fields_fail_only_when_empty (row : gmap string string) (s : string) :
  (row !! "firstname" = Some s →
     (fails_on "firstname" (safeParse row) ↔ s = EmptyString)
     ∧ (issue "firstname" "First name is required" ∈ errors_of (safeParse row)
        ↔ s = EmptyString))
  ∧ (row !! "lastname" = Some s →
     (fails_on "lastname" (safeParse row) ↔ s = EmptyString)
     ∧ (issue "lastname" "Last name is required" ∈ errors_of (safeParse row)
        ↔ s = EmptyString))
  ∧ (row !! "username" = Some s →
     (fails_on "username" (safeParse row) ↔ s = EmptyString)
     ∧ (issue "username" "Username is required" ∈ errors_of (safeParse row)
        ↔ s = EmptyString))
  ∧ (row !! "password" = Some s →
     (fails_on "password" (safeParse row) ↔ s = EmptyString)
     ∧ (issue "password" "Password is required" ∈ errors_of (safeParse row)
        ↔ s = EmptyString)).
Proof.
  destruct (fails_on_field row) as (Hf & Hl & Hu & _ & Hp & _).
  pose proof (safeParse_errors row) as He.
  split; [|split; [|split]]; intros Hs.
  - apply (text_field_rule _ _ parse_firstname); try done.
    intros i Hi. rewrite He, !elem_of_app. auto 10.
  - apply (text_field_rule _ _ parse_lastname); try done.
    intros i Hi. rewrite He, !elem_of_app. auto 10.
  - apply (text_field_rule _ _ parse_username); try done.
    intros i Hi. rewrite He, !elem_of_app. auto 10.
  - apply (text_field_rule _ _ parse_password); try done.
    intros i Hi. rewrite He, !elem_of_app. auto 10.
Qed.

(** C3, as the code has it: both numeric fields are coerced with
    [Number] and fail exactly when the result is [NaN]; the refinement
    is [!Number.isNaN(val)], so a text that coerces to an infinity
    passes, and the row carries the coerced value. *)
Theorem numeric_fields_fail_only_on_nan (row : gmap string string) :
  (fails_on "uid" (safeParse row)
   ↔ Js.isNaN (Js.Number_of_prop (row !! "uid")) = true)
  ∧ (fails_on "membershipplanid" (safeParse row)
     ↔ Js.isNaN (Js.Number_of_prop (row !! "membershipplanid")) = true)
  ∧ (∀ d, safeParse row = Success d →
       uid d = Js.Number_of_prop (row !! "uid")
       ∧ membershipplanid d = Js.Number_of_prop (row !! "membershipplanid")).
Proof.
  destruct (fails_on_field row) as (_ & _ & _ & Hi & _ & Hm).
  split; [|split].
  - rewrite Hi. by apply number_issues.
  - rewrite Hm. by apply number_issues.
  - intros d (_ & _ & _ & Hu & _ & _ & Hp)%safeParse_success_inv.
    apply number_valid_inv in Hu, Hp. by rewrite <- Hu, <- Hp.
Qed.

(** C9: a row whose [uid] or [membershipplanid] text is empty, and whose
    other fields meet their rules, parses, and the empty text has become
    the number 0. *)
Theorem empty_numeric_text_is_zero (row : gmap string string)
    (f l u i p e m : string) :
  row !! "firstname" = Some f → row !! "lastname" = Some l →
  row !! "username" = Some u → row !! "uid" = Some i →
  row !! "password" = Some p → row !! "email" = Some e →
  row !! "membershipplanid" = Some m →
  f ≠ EmptyString → l ≠ EmptyString → u ≠ EmptyString → p ≠ EmptyString →
  email_pattern e = true →
  (i = EmptyString ∧ Js.isNaN (Js.Number m) = false)
  ∨ (m = EmptyString ∧ Js.isNaN (Js.Number i) = false) →
  ∃ d, safeParse row = Success d
       ∧ firstname d = f ∧ lastname d = l ∧ username d = u
       ∧ password d = p ∧ email d = e
       ∧ (i = EmptyString → uid d = Js.zero)
       ∧ (m = EmptyString → membershipplanid d = Js.zero).
Proof.
  intros Hf Hl Hu Hi Hp He Hm Nf Nl Nu Np Pe Hnum.
  assert (Js.isNaN (Js.Number i) = false ∧ Js.isNaN (Js.Number m) = false)
    as [Ni Nm] by (destruct Hnum as [[-> ?]|[-> ?]]; by split).
  eexists. split.
  - apply safeParse_success.
    + unfold parse_firstname. rewrite Hf. by apply nonempty_valid.
    + unfold parse_lastname. rewrite Hl. by apply nonempty_valid.
    + unfold parse_username. rewrite Hu. by apply nonempty_valid.
    + unfold parse_uid. rewrite Hi. by apply number_valid.
    + unfold parse_password. rewrite Hp. by apply nonempty_valid.
    + unfold parse_email. rewrite He. simpl. by rewrite Pe.
    + unfold parse_membershipplanid. rewrite Hm. by apply number_valid.
  - simpl. repeat split; by intros ->.
Qed.

(** *** Row processor *)

Lemma forEach_validate_row (data : list (gmap string string)) (k : nat)
    (acc : list CsvRow * list string) :
  forEach validate_row data k acc
  = (acc.1 ++ omap (fun row => data_of (safeParse row)) data,
     acc.2 ++ concat (imap (fun index row =>
                map (row_error (k + index)) (errors_of (safeParse row))) data)).
Proof.
  revert k acc. induction data as [|row data IH]; intros k [rows errs]; simpl.
  - by rewrite !app_nil_r.
  - rewrite IH. unfold validate_row. simpl.
    replace (k + 0)%nat with k by lia.
    assert (Hshift :
      imap (fun index row' =>
        map (row_error (S (k + index))) (errors_of (safeParse row'))) data
      = imap ((fun index row' =>
        map (row_error (k + index)) (errors_of (safeParse row'))) ∘ S) data).
    { apply imap_ext. intros j x _. simpl. do 2 f_equal. lia. }
    rewrite Hshift.
    destruct (safeParse row) as [d|errors]; simpl; by rewrite <- app_assoc.
Qed.

(** C6: the row processor runs the validator on every record; the valid
    rows are the successful parses in their original order, with no
    trace of their positions, and the error list holds, record by
    record, one string per issue, which reads
    [Row <1-based position> - <path>: <message>].  What a record
    contributes depends on that record and its position alone. *)
Theorem row_processor_outputs (data : list (gmap string string)) :
  validate_rows data
  = (omap (fun row => data_of (safeParse row)) data,
     concat (imap (fun index row =>
       map (fun err =>
              "Row " +:+ Js.nat_toString (index + 1) +:+ " - "
              +:+ Js.join " " (path err) +:+ ": " +:+ message err)
           (errors_of (safeParse row))) data)).
Proof.
  unfold validate_rows. rewrite forEach_validate_row. reflexivity.
Qed.

(** *** Batch orchestrator *)

Lemma lookups_settle net (validRows : list CsvRow) :
  lookups net validRows
  = Js.Normal <$> imap (fun i row => annotate row (net i)) validRows.
Proof.
  unfold lookups. apply list_eq. intros i.
  rewrite list_lookup_fmap, !list_lookup_imap.
  destruct (validRows !! i); simpl; [|done]. by rewrite lookup_settles.
Qed.

Lemma annotated_base net (validRows : list CsvRow) :
  base <$> imap (fun i row => annotate row (net i)) validRows = validRows.
Proof.
  apply list_eq. intros i. rewrite list_lookup_fmap, list_lookup_imap.
  by destruct (validRows !! i).
Qed.

Lemma annotated_status_ok net (validRows : list CsvRow) :
  Forall status_ok (imap (fun i row => annotate row (net i)) validRows).
Proof.
  apply Forall_lookup. intros i r. rewrite list_lookup_imap.
  destruct (validRows !! i); simpl; [|done].
  intros [= <-]. apply annotate_status_ok.
Qed.

(** C5: once the header has been accepted and every lookup has
    completed, in whatever order, the rows handed to [setValidatedData]
    are the valid rows in their input order, each annotated with the
    status of its own request; one request was issued per valid row, in
    row order.  With no valid row the result is empty and no request is
    made. *)
Theorem batch_keeps_input_order (results : Papa.results)
    (net : nat → fetch_outcome) (order : list nat) (st : State) :
  header_matches (Papa.meta_fields results) = true →
  (∀ i, (i < length (validate_rows (Papa.data results)).1)%nat → i ∈ order) →
  let validRows := (validate_rows (Papa.data results)).1 in
  let out := complete results net order st in
  validatedData (state out) = imap (fun i row => annotate row (net i)) validRows
  ∧ base <$> validatedData (state out) = validRows
  ∧ requests out = apiUrl <$> validRows
  ∧ length (requests out) = length validRows
  ∧ (validRows = [] → validatedData (state out) = [] ∧ requests out = []).
Proof.
  intros Hhdr Hcov validRows out.
  assert (Hdata : validatedData (state out)
                  = imap (fun i row => annotate row (net i)) validRows).
  { subst out validRows. unfold complete. rewrite Hhdr. simpl.
    destruct (validate_rows (Papa.data results)) as [rows errs]. simpl in *.
    rewrite lookups_settle, all_in_order; [done|].
    intros i Hi. apply Hcov. by rewrite length_imap in Hi. }
  assert (Hreq : requests out = apiUrl <$> validRows).
  { subst out validRows. unfold complete. rewrite Hhdr. simpl.
    by destruct (validate_rows (Papa.data results)). }
  split; [done|]. split; [by rewrite Hdata, annotated_base|].
  split; [done|]. split; [by rewrite Hreq, length_fmap|].
  intros E. by rewrite Hdata, Hreq, E.
Qed.

(** *** Header check *)

(** The guard of line 80 as written: when the comma-joined field names
    differ from the comma-joined expected names (or no names were
    detected), the upload ends with the single header message, no rows
    and no request. *)
Lemma complete_header_mismatch (results : Papa.results)
    (net : nat → fetch_outcome) (order : list nat) (st : State) :
  header_matches (Papa.meta_fields results) = false →
  errors (state (complete results net order st)) = [header_error]
  ∧ validatedData (state (complete results net order st)) = []
  ∧ requests (complete results net order st) = [].
Proof. intros Hhdr. unfold complete. by rewrite Hhdr. Qed.

(** *** Retained statuses *)

Lemma complete_status_ok (results : Papa.results) (net : nat → fetch_outcome)
    (order : list nat) (st : State) :
  Forall status_ok (validatedData st) →
  Forall status_ok (validatedData (state (complete results net order st))).
Proof.
  intros Hst. unfold complete.
  destruct (header_matches _); simpl; [|constructor].
  destruct (validate_rows (Papa.data results)) as [rows errs]. simpl.
  rewrite lookups_settle.
  destruct (all_pending_or_in_order
              (imap (fun i row => annotate row (net i)) rows) order) as [-> | ->];
    simpl; [done|]. apply annotated_status_ok.
Qed.

Lemma handle_status_ok (ev : event) (w : State * Browser) :
  Forall status_ok (validatedData w.1) →
  Forall status_ok (validatedData (handle ev w).1).
Proof.
  intros Hw. destruct ev as [|d [csv|] net order| |]; simpl.
  - constructor.
  - by apply complete_status_ok.
  - done.
  - done.
  - done.
Qed.

Lemma run_status_ok (evs : list event) (w : State * Browser) :
  Forall status_ok (validatedData w.1) →
  Forall status_ok (validatedData (run evs w).1).
Proof.
  revert w. induction evs as [|ev evs IH]; intros w Hw; simpl; [done|].
  apply IH. by apply handle_status_ok.
Qed.

(** C10: if every retained row carries one of the three statuses, so
    does every retained row after [handleClear], after the [complete]
    callback of an upload (whether it resets on a header mismatch, still
    waits for lookups, or stores their results), and after any sequence
    of user events. *)
Theorem statuses_stay_in_range (st : State) :
  Forall status_ok (validatedData st) →
  Forall status_ok (validatedData (handleClear st))
  ∧ (∀ results net order,
       Forall status_ok (validatedData (state (complete results net order st))))
  ∧ (∀ evs b, Forall status_ok (validatedData (run evs (st, b)).1)).
Proof.
  intros Hst. split; [constructor|]. split.
  - intros. by apply complete_status_ok.
  - intros. by apply run_status_ok.
Qed.

(** *** Header template round trip *)

(** C7: the text [handleDownloadHeaderCSV] writes, read back by
    [Papa.parse] as comma-separated text, gives the seven expected field
    names and no data row; the header check accepts them, so the upload
    reports no error, keeps no row and issues no request. *)
Theorem header_template_round_trip (nl : Papa.newline) :
  Papa.parse (Papa.Dialect ","%char nl) header_csv
  = Papa.Results [] (Some expectedHeaders)
  ∧ header_matches (Papa.meta_fields
      (Papa.parse (Papa.Dialect ","%char nl) header_csv)) = true
  ∧ (∀ net order st,
       errors (state (handleFileUpload (Papa.Dialect ","%char nl)
                        (Some header_csv) net order st)) = []
       ∧ validatedData (state (handleFileUpload (Papa.Dialect ","%char nl)
                        (Some header_csv) net order st)) = []
       ∧ requests (handleFileUpload (Papa.Dialect ","%char nl)
                        (Some header_csv) net order st) = []).
Proof.
  assert (E : Papa.parse (Papa.Dialect ","%char nl) header_csv
              = Papa.Results [] (Some expectedHeaders))
    by (destruct nl; vm_compute; reflexivity).
  assert (Hm : header_matches (Some expectedHeaders) = true)
    by (vm_compute; reflexivity).
  split; [done|]. split; [by rewrite E|].
  intros net order st. unfold handleFileUpload, complete. rewrite E.
  simpl Papa.meta_fields. rewrite Hm. simpl.
  pose proof (all_in_order (@nil ExtendedCsvRow) order) as Hall.
  simpl in Hall. change (lookups net []) with (@nil (Js.completion ExtendedCsvRow)).
  rewrite Hall; [done|]. lia.
Qed.

(** *** Downloads *)

Lemma filter_keeps_older (link : nat) (l : list Anchor) :
  Forall (fun a => (node a < link)%nat) l →
  List.filter (fun a => negb (node a =? link)%nat) l = l.
Proof.
  induction 1 as [|a l Ha _ IH]; simpl; [done|].
  replace (node a =? link)%nat with false by (symmetry; apply Nat.eqb_neq; lia).
  simpl. by rewrite IH.
Qed.

Lemma download_csv_effect (csv name : string) (b : Browser) :
  Forall (fun a => (node a < next_node b)%nat) (body_children b) →
  objectURLs (download_csv csv name b)
  = <[next_url b := csv_blob csv]> (objectURLs b)
  ∧ body_children (download_csv csv name b) = body_children b
  ∧ downloads (download_csv csv name b) = downloads b ++ [(name, next_url b)].
Proof.
  intros Hfresh. unfold download_csv. simpl. repeat split.
  rewrite List.filter_app. simpl. rewrite Nat.eqb_refl. simpl.
  rewrite app_nil_r. by apply filter_keeps_older.
Qed.

(** C8, as the code has it: neither handler calls
    [URL.revokeObjectURL].  A download leaves the document's children as
    they were (the temporary link is removed after the click) and
    records one started download, but the object URL it created stays
    in the store.  With no retained row [handleDownloadCSV] creates
    nothing and changes nothing. *)
Theorem downloads_keep_object_url (st : State) (b : Browser) :
  Forall (fun a => (node a < next_node b)%nat) (body_children b) →
  (objectURLs (handleDownloadHeaderCSV b) !! next_url b
     = Some (csv_blob header_csv)
   ∧ body_children (handleDownloadHeaderCSV b) = body_children b
   ∧ downloads (handleDownloadHeaderCSV b)
     = downloads b ++ [("csv_header_format.csv", next_url b)])
  ∧ (validatedData st ≠ [] →
     objectURLs (handleDownloadCSV st b) !! next_url b
       = Some (csv_blob (report_csv (validatedData st)))
     ∧ body_children (handleDownloadCSV st b) = body_children b
     ∧ downloads (handleDownloadCSV st b)
       = downloads b ++ [("activation_results.csv", next_url b)])
  ∧ (validatedData st = [] → handleDownloadCSV st b = b).
Proof.
  intros Hfresh. split; [|split].
  - unfold handleDownloadHeaderCSV.
    destruct (download_csv_effect header_csv "csv_header_format.csv" b Hfresh)
      as (-> & -> & ->).
    by rewrite lookup_insert_eq.
  - intros Hne.
    assert (E : handleDownloadCSV st b
                = download_csv (report_csv (validatedData st))
                    "activation_results.csv" b).
    { unfold handleDownloadCSV. by destruct (validatedData st). }
    rewrite E.
    destruct (download_csv_effect (report_csv (validatedData st))
                "activation_results.csv" b Hfresh) as (-> & -> & ->).
    by rewrite lookup_insert_eq.
  - intros E. unfold handleDownloadCSV. by rewrite E.
Qed.

End Properties.

(** ** Concrete evaluations *)

(** C2, against the claim as stated: the first name [" "] trims to the
    empty text, yet the record parses, first name unchanged. *)
Lemma blank_firstname_is_accepted :
  Js.trim (list_ascii_of_string " ") = []
  ∧ safeParse (lib := sample_library)
      (input_record " " "Lee" "annlee" "7" "secret" "ann@example.org" "3")
    = Success {| firstname := " "; lastname := "Lee"; username := "annlee";
                 uid := Js.Finite false 7 0; password := "secret";
                 email := "ann@example.org";
                 membershipplanid := Js.Finite false 3 0 |}.
Proof. split; vm_compute; reflexivity. Qed.

(** C3, against the claim as stated: the uid text [Infinity] coerces to
    a number that is not finite, yet the record parses and carries it. *)
Lemma infinite_uid_is_accepted :
  Js.Number "Infinity" = Js.Infinity false
  ∧ Js.isFinite (Js.Number "Infinity") = false
  ∧ safeParse (lib := sample_library)
      (input_record "Ann" "Lee" "annlee" "Infinity" "secret"
         "ann@example.org" "3")
    = Success {| firstname := "Ann"; lastname := "Lee"; username := "annlee";
                 uid := Js.Infinity false; password := "secret";
                 email := "ann@example.org";
                 membershipplanid := Js.Finite false 3 0 |}.
Proof. repeat split; vm_compute; reflexivity. Qed.

(** C4, at a header the check lets through: the first header cell is the
    quoted text [firstname,lastname], so six names are detected, not the
    seven expected ones, but joined by commas they spell the expected
    line.  The upload is then not refused: with the header line alone no
    message at all is shown, and with a data line that line is validated
    against the six names. *)
Example quoted_header_slips_through :
  Papa.meta_fields (Papa.parse Papa.comma_lf quoted_header)
  = Some ["firstname,lastname"; "username"; "uid"; "password"; "email";
          "membershipplanid"]
  ∧ ["firstname,lastname"; "username"; "uid"; "password"; "email";
     "membershipplanid"] ≠ expectedHeaders
  ∧ Js.join "," ["firstname,lastname"; "username"; "uid"; "password"; "email";
                 "membershipplanid"] = Js.join "," expectedHeaders
  ∧ errors (state (handleFileUpload (lib := sample_library) Papa.comma_lf
                     (Some quoted_header) sample_net [] sample_state)) = []
  ∧ errors (state (handleFileUpload (lib := sample_library) Papa.comma_lf
                     (Some quoted_header_upload) sample_net [] sample_state))
    = ["Row 1 - firstname: Required"; "Row 1 - lastname: Required"].
Proof. repeat split; try discriminate; vm_compute; reflexivity. Qed.

(** C8, against the claim as stated: after the header download from a
    fresh page the download has been started from object URL 0, and that
    URL is still in the store. *)
Lemma header_download_leaves_object_url :
  downloads (handleDownloadHeaderCSV fresh_browser)
  = [("csv_header_format.csv", 0%nat)]
  ∧ objectURLs (handleDownloadHeaderCSV fresh_browser) !! 0%nat
    = Some (csv_blob header_csv).
Proof. split; vm_compute; reflexivity. Qed.

(** The lookup at a payload with [response: true], at one without, and
    at a failed request. *)
Lemma lookup_always_resolves_witness :
  fetchActivationStatusForRow sample_row (sample_net 0)
  = Js.Normal {| base := sample_row; activationStatus := "Activated" |}
  ∧ fetchActivationStatusForRow sample_row (Response (Json (Js.JObject [])))
    = Js.Normal {| base := sample_row; activationStatus := "Inactive" |}
  ∧ fetchActivationStatusForRow sample_row NetworkFailure
    = Js.Normal {| base := sample_row; activationStatus := "Error" |}.
Proof.
  split; [|split].
  - apply (proj1 (proj2 (lookup_always_resolves sample_row (sample_net 0))) _
             eq_refl eq_refl).
  - apply (proj1 (proj2 (proj2
             (lookup_always_resolves sample_row
                (Response (Json (Js.JObject []))))))
             _ eq_refl); [discriminate | reflexivity].
  - apply (proj1 (proj2 (proj2 (proj2
             (lookup_always_resolves sample_row NetworkFailure))))
             (Js.TypeError "Failed to fetch") eq_refl).
Defined.

(** The text-field rule at a first name of one space. *)
Lemma text_fields_fail_only_when_empty_witness :
  ¬ fails_on "firstname"
      (safeParse (lib := sample_library)
         (input_record " " "Lee" "annlee" "7" "secret" "ann@example.org" "3")).
Proof.
  intros Hfails.
  apply (proj1 (text_fields_fail_only_when_empty (lib := sample_library)
                  (input_record " " "Lee" "annlee" "7" "secret"
                     "ann@example.org" "3") " ")) in Hfails;
    [discriminate | reflexivity].
Defined.

(** The numeric rule at the uid texts [Infinity] and [abc]. *)
Lemma numeric_fields_fail_only_on_nan_witness :
  ¬ fails_on "uid"
      (safeParse (lib := sample_library)
         (input_record "Ann" "Lee" "annlee" "Infinity" "secret"
            "ann@example.org" "3"))
  ∧ fails_on "uid"
      (safeParse (lib := sample_library)
         (input_record "Ann" "Lee" "annlee" "abc" "secret"
            "ann@example.org" "3")).
Proof.
  split.
  - intros Hfails.
    apply (proj1 (numeric_fields_fail_only_on_nan (lib := sample_library) _))
      in Hfails. vm_compute in Hfails. discriminate.
  - apply (proj1 (numeric_fields_fail_only_on_nan (lib := sample_library) _)).
    vm_compute. reflexivity.
Defined.

(** The empty uid text, in an otherwise valid record. *)
Lemma empty_numeric_text_is_zero_witness :
  ∃ d, safeParse (lib := sample_library)
         (input_record "Ann" "Lee" "annlee" EmptyString "secret"
            "ann@example.org" "3") = Success d
       ∧ firstname d = "Ann" ∧ lastname d = "Lee" ∧ username d = "annlee"
       ∧ password d = "secret" ∧ email d = "ann@example.org"
       ∧ (EmptyString = EmptyString → uid d = Js.zero)
       ∧ ("3" = EmptyString → membershipplanid d = Js.zero).
Proof.
  apply (empty_numeric_text_is_zero (lib := sample_library)
           (input_record "Ann" "Lee" "annlee" EmptyString "secret"
              "ann@example.org" "3")
           "Ann" "Lee" "annlee" EmptyString "secret" "ann@example.org" "3");
    try reflexivity; try discriminate.
  left. split; reflexivity.
Defined.

(** The row processor on the rows of the two-row upload. *)
Lemma row_processor_outputs_witness :
  validate_rows (lib := sample_library)
    (Papa.data (Papa.parse Papa.comma_lf sample_upload))
  = ([sample_row;
      {| firstname := "Bob"; lastname := "Ray"; username := "bobray";
         uid := Js.Finite false 8 0; password := "hidden";
         email := "bob@example.org"; membershipplanid := Js.Finite false 4 0 |}],
     []).
Proof.
  rewrite (row_processor_outputs (lib := sample_library)).
  vm_compute. reflexivity.
Defined.

(** The two-row upload whose second lookup completes first. *)
Lemma batch_keeps_input_order_witness :
  header_matches (Papa.meta_fields (Papa.parse Papa.comma_lf sample_upload))
  = true
  ∧ (∀ i, (i < length (validate_rows (lib := sample_library)
                         (Papa.data (Papa.parse Papa.comma_lf sample_upload))).1)%nat
          → i ∈ [1%nat; 0%nat])
  ∧ activationStatus
      <$> validatedData
            (state (complete (lib := sample_library)
                      (Papa.parse Papa.comma_lf sample_upload)
                      sample_net [1%nat; 0%nat] sample_state))
    = ["Activated"; "Error"].
Proof.
  assert (Hhdr : header_matches
            (Papa.meta_fields (Papa.parse Papa.comma_lf sample_upload)) = true)
    by (vm_compute; reflexivity).
  assert (Hcov : ∀ i,
            (i < length (validate_rows (lib := sample_library)
                           (Papa.data (Papa.parse Papa.comma_lf sample_upload))).1)%nat
            → i ∈ [1%nat; 0%nat]).
  { intros i Hi. vm_compute in Hi.
    destruct i as [|[|i]]; [repeat constructor | repeat constructor | lia]. }
  split; [exact Hhdr|]. split; [exact Hcov|].
  rewrite (proj1 (batch_keeps_input_order (lib := sample_library)
                    (Papa.parse Papa.comma_lf sample_upload) sample_net
                    [1%nat; 0%nat] sample_state Hhdr Hcov)).
  vm_compute. reflexivity.
Defined.

(** The status invariant from a state that holds an "Inactive" row. *)
Lemma statuses_stay_in_range_witness :
  Forall status_ok (validatedData sample_state)
  ∧ Forall status_ok
      (validatedData
         (run (lib := sample_library)
            [FileChosen Papa.comma_lf (Some sample_upload) sample_net [0%nat];
             DownloadResultClicked; ClearClicked]
            (sample_state, fresh_browser)).1).
Proof.
  assert (Hst : Forall status_ok (validatedData sample_state)).
  { constructor; [right; left; reflexivity | constructor]. }
  split; [exact Hst|].
  apply (proj2 (proj2 (statuses_stay_in_range (lib := sample_library)
                         sample_state Hst))).
Defined.

(** Both downloads from a fresh page that holds one result. *)
Lemma downloads_keep_object_url_witness :
  Forall (fun a => (node a < next_node fresh_browser)%nat)
    (body_children fresh_browser)
  ∧ objectURLs (handleDownloadCSV (lib := sample_library) sample_state
                  fresh_browser) !! 0%nat
    = Some (csv_blob (report_csv (lib := sample_library)
                        (validatedData sample_state)))
  ∧ handleDownloadCSV (lib := sample_library) initial fresh_browser
    = fresh_browser.
Proof.
  assert (Hfresh : Forall (fun a => (node a < next_node fresh_browser)%nat)
                     (body_children fresh_browser)) by constructor.
  split; [exact Hfresh|].
  destruct (downloads_keep_object_url (lib := sample_library) sample_state
              fresh_browser Hfresh) as (_ & Hreport & _).
  destruct (downloads_keep_object_url (lib := sample_library) initial
              fresh_browser Hfresh) as (_ & _ & Hempty).
  split.
  - apply Hreport. discriminate.
  - apply Hempty. reflexivity.
Defined.

(** ** Further properties of the component *)

Section Coverage.
Context {lib : Library}.

(** *** Schema validator, field by field *)

Lemma nonempty_valid_iff msg key v s :
  nonempty msg key (z_string key v) = Valid s ↔ v = Some s ∧ s ≠ EmptyString.
Proof.
  destruct v as [[|c t]|]; simpl; split.
  - discriminate.
  - intros [[= <-] ?]. done.
  - intros [= <-]. done.
  - intros [[= <-] _]. done.
  - discriminate.
  - intros [? _]. discriminate.
Qed.

Lemma email_valid_iff msg key v s :
  z_email msg key (z_string key v) = Valid s
  ↔ v = Some s ∧ email_pattern s = true.
Proof.
  destruct v as [t|]; simpl.
  - destruct (email_pattern t) eqn:E; split.
    + intros [= <-]. done.
    + intros [[= <-] _]. done.
    + discriminate.
    + intros [[= <-] ?]. congruence.
  - split; [discriminate|]. intros [? _]. discriminate.
Qed.

Lemma number_valid_iff msg key v n :
  refine (fun val => negb (Js.isNaN val)) msg key (z_coerce_number key v)
  = Valid n
  ↔ n = Js.Number_of_prop v ∧ Js.isNaN n = false.
Proof.
  unfold z_coerce_number.
  destruct (Js.isNaN (Js.Number_of_prop v)) eqn:E; simpl.
  - split; [discriminate|]. intros [-> ?]. congruence.
  - rewrite E. simpl. split.
    + intros [= <-]. done.
    + intros [-> _]. done.
Qed.

(** X1: the validator succeeds exactly on the row objects that hold a
    non-empty text under each of [firstname], [lastname], [username],
    [password], a text the e-mail pattern accepts under [email], and
    texts (or nothing) under [uid] and [membershipplanid] whose
    [Number(...)] is not [NaN]; the parsed row then holds those texts
    unchanged and those numbers. *)
Theorem safeParse_success_iff (row : gmap string string) (d : CsvRow) :
  safeParse row = Success d
  ↔ (row !! "firstname" = Some (firstname d) ∧ firstname d ≠ EmptyString)
    ∧ (row !! "lastname" = Some (lastname d) ∧ lastname d ≠ EmptyString)
    ∧ (row !! "username" = Some (username d) ∧ username d ≠ EmptyString)
    ∧ (uid d = Js.Number_of_prop (row !! "uid") ∧ Js.isNaN (uid d) = false)
    ∧ (row !! "password" = Some (password d) ∧ password d ≠ EmptyString)
    ∧ (row !! "email" = Some (email d) ∧ email_pattern (email d) = true)
    ∧ (membershipplanid d = Js.Number_of_prop (row !! "membershipplanid")
       ∧ Js.isNaN (membershipplanid d) = false).
Proof.
  rewrite <- !nonempty_valid_iff, <- email_valid_iff, <- !number_valid_iff.
  split.
  - apply safeParse_success_inv.
  - intros (Hf & Hl & Hu & Hi & Hp & He & Hm). destruct d.
    by apply safeParse_success.
Qed.

(** Every key of the shape reports at most one issue, under its own
    name. *)
Lemma text_issue_shape msg key v :
  (∃ s, nonempty msg key (z_string key v) = Valid s)
  ∨ (∃ m, nonempty msg key (z_string key v) = Invalid [issue key m]).
Proof.
  destruct v as [[|c t]|]; simpl; eauto.
Qed.

Lemma email_issue_shape msg key v :
  (∃ s, z_email msg key (z_string key v) = Valid s)
  ∨ (∃ m, z_email msg key (z_string key v) = Invalid [issue key m]).
Proof.
  destruct v as [t|]; simpl; [destruct (email_pattern t)|]; eauto.
Qed.

Lemma number_issue_shape check msg key v :
  (∃ n, refine check msg key (z_coerce_number key v) = Valid n)
  ∨ (∃ m, refine check msg key (z_coerce_number key v) = Invalid [issue key m]).
Proof.
  unfold z_coerce_number. destruct (Js.isNaN _); simpl; eauto.
  destruct (check _); eauto.
Qed.

(** X2: a failed parse reports at least one issue and at most seven, no
    two under the same path, each under one of the seven field names. *)
Theorem failure_reports_each_field_once (row : gmap string string)
    (errs : list ZodIssue) :
  safeParse row = Failure errs →
  errs ≠ []
  ∧ (length errs ≤ 7)%nat
  ∧ NoDup (path <$> errs)
  ∧ Forall (fun i => ∃ key, key ∈ expectedHeaders ∧ path i = [key]) errs.
Proof.
  unfold safeParse, parse_firstname, parse_lastname, parse_username,
    parse_uid, parse_password, parse_email, parse_membershipplanid.
  destruct (text_issue_shape "First name is required" "firstname"
              (row !! "firstname")) as [[? ->]|[? ->]];
  destruct (text_issue_shape "Last name is required" "lastname"
              (row !! "lastname")) as [[? ->]|[? ->]];
  destruct (text_issue_shape "Username is required" "username"
              (row !! "username")) as [[? ->]|[? ->]];
  destruct (number_issue_shape (fun val => negb (Js.isNaN val))
              "UID must be a number" "uid" (row !! "uid")) as [[? ->]|[? ->]];
  destruct (text_issue_shape "Password is required" "password"
              (row !! "password")) as [[? ->]|[? ->]];
  destruct (email_issue_shape "Invalid email format" "email"
              (row !! "email")) as [[? ->]|[? ->]];
  destruct (number_issue_shape (fun val => negb (Js.isNaN val))
              "Membership Plan id must be a number" "membershipplanid"
              (row !! "membershipplanid")) as [[? ->]|[? ->]];
  simpl; intros [= <-]; simpl.
  all: split; [discriminate|].
  all: split; [lia|].
  all: split; [apply (bool_decide_unpack _); vm_compute; reflexivity|].
  all: repeat (apply Forall_cons; split;
         [eexists; split; [|reflexivity];
          apply (bool_decide_unpack _); vm_compute; reflexivity|]).
  all: apply Forall_nil_2.
Qed.

Ltac foreign_path H :=
  first [ apply nonempty_paths in H | apply email_paths in H
        | apply number_paths in H ]; congruence.

Lemma fails_on_email (row : gmap string string) :
  fails_on "email" (safeParse row) ↔ issues_of (parse_email row) ≠ [].
Proof.
  unfold fails_on. rewrite safeParse_errors. split.
  - intros (i & Hin & Hp) Hnil. rewrite !elem_of_app in Hin.
    destruct Hin as [H|[H|[H|[H|[H|[H|H]]]]]];
      first [ by (rewrite Hnil in H; apply elem_of_nil in H)
            | foreign_path H ].
  - intros Hne. destruct (issues_of (parse_email row)) as [|i l] eqn:E; [done|].
    exists i. split.
    + rewrite !elem_of_app. do 5 right. left. constructor.
    + eapply email_paths. unfold parse_email in E. rewrite E. constructor.
Qed.

(** X3: the validator reads the seven keys of the shape and nothing
    else: two row objects that agree on them get the same result,
    whatever further keys (such as the bucket of surplus cells) they
    hold. *)
Theorem safeParse_reads_only_the_shape (row row' : gmap string string) :
  (∀ key, key ∈ expectedHeaders → row !! key = row' !! key) →
  safeParse row = safeParse row'.
Proof.
  intros Hagree.
  unfold safeParse, parse_firstname, parse_lastname, parse_username,
    parse_uid, parse_password, parse_email, parse_membershipplanid.
  rewrite (Hagree "firstname"), (Hagree "lastname"), (Hagree "username"),
    (Hagree "uid"), (Hagree "password"), (Hagree "email"),
    (Hagree "membershipplanid");
    first [ reflexivity | apply (bool_decide_unpack _); vm_compute; reflexivity ].
Qed.

(** A data line of seven cells becomes the record that holds them under
    the expected names; cells beyond the seventh change nothing. *)
Lemma processRow_seven (f l u i p e m : string) (extra : list string) :
  Papa.processRow expectedHeaders ([f; l; u; i; p; e; m] ++ extra)
  = input_record f l u i p e m.
Proof.
  apply map_eq. intros key. unfold Papa.processRow, input_record. simpl.
  destruct (decide (key = "firstname")) as [->|?]; [reflexivity|].
  destruct (decide (key = "lastname")) as [->|?]; [reflexivity|].
  destruct (decide (key = "username")) as [->|?]; [reflexivity|].
  destruct (decide (key = "uid")) as [->|?]; [reflexivity|].
  destruct (decide (key = "password")) as [->|?]; [reflexivity|].
  destruct (decide (key = "email")) as [->|?]; [reflexivity|].
  destruct (decide (key = "membershipplanid")) as [->|?]; [reflexivity|].
  by rewrite !lookup_insert_ne.
Qed.

(** A name without a cell is absent from the row object. *)
Lemma processRow_short (cells : list string) (j : nat) (key : string) :
  expectedHeaders !! j = Some key → (length cells ≤ j)%nat →
  Papa.processRow expectedHeaders cells !! key = None.
Proof.
  intros Hkey Hlen. unfold Papa.processRow.
  destruct j as [|[|[|[|[|[|[|j]]]]]]]; simpl in Hkey; try discriminate;
    injection Hkey as <-;
    repeat (destruct cells as [|? cells]; [|simpl in Hlen; try lia]);
    reflexivity.
Qed.

(** X4: a column that a data line leaves without a cell (a line with too
    few cells, read under the expected header) fails validation: the
    text columns with "Required", the numeric ones because
    [Number(undefined)] is [NaN]. *)
Theorem missing_cell_fails (cells : list string) (j : nat) (key : string) :
  expectedHeaders !! j = Some key → (length cells ≤ j)%nat →
  fails_on key (safeParse (Papa.processRow expectedHeaders cells))
  ∧ issue key (if decide (key = "uid" ∨ key = "membershipplanid")
               then "Expected number, received nan" else "Required")
    ∈ errors_of (safeParse (Papa.processRow expectedHeaders cells)).
Proof.
  intros Hkey Hlen.
  pose proof (processRow_short cells j key Hkey Hlen) as Hnone.
  set (row := Papa.processRow expectedHeaders cells) in *.
  assert (Hin : issue key (if decide (key = "uid" ∨ key = "membershipplanid")
                           then "Expected number, received nan" else "Required")
                ∈ errors_of (safeParse row)).
  { rewrite safeParse_errors, !elem_of_app.
    unfold parse_firstname, parse_lastname, parse_username, parse_uid,
      parse_password, parse_email, parse_membershipplanid.
    destruct j as [|[|[|[|[|[|[|j]]]]]]]; simpl in Hkey; try discriminate;
      injection Hkey as <-; rewrite Hnone; simpl;
      auto 10 using list_elem_of_here. }
  split; [|done]. eexists. split; [exact Hin|]. reflexivity.
Qed.

(** *** Row processor *)

Lemma forEach_app {A St : Type} (f : St → A → nat → St) (l1 l2 : list A)
    (k : nat) (s : St) :
  forEach f (l1 ++ l2) k s = forEach f l2 (k + length l1) (forEach f l1 k s).
Proof.
  revert k s. induction l1 as [|x l1 IH]; intros k s; simpl.
  - by rewrite Nat.add_0_r.
  - rewrite IH. f_equal. lia.
Qed.

(** X5: processing a sequence of records is processing its first part
    and then the rest with the row numbers continuing: valid rows and
    error strings of the two parts are appended, and those of the rest
    are what processing the rest alone gives when its numbering starts
    after the first part. *)
Theorem validate_rows_app (d1 d2 : list (gmap string string)) :
  validate_rows (d1 ++ d2)
  = ((validate_rows d1).1 ++ (forEach validate_row d2 (length d1) ([], [])).1,
     (validate_rows d1).2 ++ (forEach validate_row d2 (length d1) ([], [])).2).
Proof.
  unfold validate_rows. rewrite forEach_app. simpl.
  rewrite (forEach_validate_row d2 (length d1) (forEach validate_row d1 0 ([], []))).
  rewrite (forEach_validate_row d2 (length d1) ([], [])). reflexivity.
Qed.

Lemma failure_has_issue (row : gmap string string) (errs : list ZodIssue) :
  safeParse row = Failure errs → errs ≠ [].
Proof.
  unfold safeParse, parse_firstname, parse_lastname, parse_username,
    parse_uid, parse_password, parse_email, parse_membershipplanid.
  destruct (text_issue_shape "First name is required" "firstname"
              (row !! "firstname")) as [[? ->]|[? ->]];
  destruct (text_issue_shape "Last name is required" "lastname"
              (row !! "lastname")) as [[? ->]|[? ->]];
  destruct (text_issue_shape "Username is required" "username"
              (row !! "username")) as [[? ->]|[? ->]];
  destruct (number_issue_shape (fun val => negb (Js.isNaN val))
              "UID must be a number" "uid" (row !! "uid")) as [[? ->]|[? ->]];
  destruct (text_issue_shape "Password is required" "password"
              (row !! "password")) as [[? ->]|[? ->]];
  destruct (email_issue_shape "Invalid email format" "email"
              (row !! "email")) as [[? ->]|[? ->]];
  destruct (number_issue_shape (fun val => negb (Js.isNaN val))
              "Membership Plan id must be a number" "membershipplanid"
              (row !! "membershipplanid")) as [[? ->]|[? ->]];
  simpl; intros [= <-]; discriminate.
Qed.

Lemma validate_rows_lengths (data : list (gmap string string)) (k : nat) :
  (length (omap (fun row => data_of (safeParse row)) data) ≤ length data)%nat
  ∧ (concat (imap (fun index row =>
        map (row_error (k + index)) (errors_of (safeParse row))) data) = []
     ↔ Forall (fun row => ∃ d, safeParse row = Success d) data)
  ∧ (length (omap (fun row => data_of (safeParse row)) data) = length data
     ↔ Forall (fun row => ∃ d, safeParse row = Success d) data).
Proof.
  revert k. induction data as [|row data IH]; intros k.
  - simpl. repeat split; constructor.
  - destruct (IH (S k)) as (Hle & Herr & Hlen).
    assert (Hshift :
      imap ((fun index row' =>
        map (row_error (k + index)) (errors_of (safeParse row'))) ∘ S) data
      = imap (fun index row' =>
        map (row_error (S k + index)) (errors_of (safeParse row'))) data).
    { apply imap_ext. intros j x _. simpl. do 2 f_equal. lia. }
    csimpl. rewrite Hshift.
    destruct (safeParse row) as [d|errs] eqn:E; simpl.
    + split; [lia|]. rewrite Herr. split.
      * split; intros H.
        -- constructor; [eauto|done].
        -- by inversion H.
      * split; intros H.
        -- constructor; [eauto|]. apply Hlen. lia.
        -- inversion H; subst. f_equal. by apply Hlen.
    + pose proof (failure_has_issue row errs E) as Hne.
      split; [lia|]. split; split.
      * destruct errs; [done|discriminate].
      * intros H. inversion H as [|? ? [d Hd] _]; subst. congruence.
      * lia.
      * intros H. inversion H as [|? ? [d Hd] _]; subst. congruence.
Qed.

(** X6: every record is either kept or reported, never both and never
    neither: there are at most as many valid rows as records, and the
    error list is empty exactly when every record parsed, which is
    exactly when no record was dropped. *)
Theorem valid_rows_or_errors (data : list (gmap string string)) :
  (length (validate_rows data).1 ≤ length data)%nat
  ∧ ((validate_rows data).2 = []
     ↔ Forall (fun row => ∃ d, safeParse row = Success d) data)
  ∧ ((validate_rows data).2 = []
     ↔ length (validate_rows data).1 = length data).
Proof.
  unfold validate_rows. rewrite forEach_validate_row. simpl.
  destruct (validate_rows_lengths data 0) as (Hle & Herr & Hlen).
  split; [done|]. split; [done|]. by rewrite Herr, Hlen.
Qed.

(** *** Header check *)

Lemma comma_free_cons (c : ascii) (s : string) :
  comma_free (String c s) = negb (Ascii.eqb ","%char c) && comma_free s.
Proof. unfold comma_free. simpl. by rewrite negb_orb. Qed.

Lemma comma_free_no_split (s s1 r : string) :
  comma_free s = true → s ≠ s1 +:+ String ","%char r.
Proof.
  revert s1. induction s as [|c s IH]; intros [|c1 s1] Hfree E; simpl in E;
    try discriminate.
  - injection E as -> _. rewrite comma_free_cons in Hfree.
    by rewrite Ascii.eqb_refl in Hfree.
  - injection E as <- E. rewrite comma_free_cons in Hfree.
    apply andb_true_iff in Hfree as [_ Hfree]. by eapply IH.
Qed.

Lemma comma_split_unique (s1 s2 r1 r2 : string) :
  comma_free s1 = true → comma_free s2 = true →
  s1 +:+ String ","%char r1 = s2 +:+ String ","%char r2 →
  s1 = s2 ∧ r1 = r2.
Proof.
  revert s2. induction s1 as [|c s1 IH]; intros [|c2 s2] H1 H2 E; simpl in E.
  - injection E as <-. done.
  - injection E as <- _. rewrite comma_free_cons in H2.
    by rewrite Ascii.eqb_refl in H2.
  - injection E as -> _. rewrite comma_free_cons in H1.
    by rewrite Ascii.eqb_refl in H1.
  - injection E as <- E. rewrite comma_free_cons in H1, H2.
    apply andb_true_iff in H1 as [_ H1]. apply andb_true_iff in H2 as [_ H2].
    destruct (IH s2 H1 H2 E) as [-> ->]. done.
Qed.

Lemma join_comma_inj (l l' : list string) :
  forallb comma_free l = true → forallb comma_free l' = true →
  l ≠ [] → l' ≠ [] → Js.join "," l = Js.join "," l' → l = l'.
Proof.
  revert l'. induction l as [|x l IH]; intros [|y l'] Hl Hl' Hne Hne' E;
    try done.
  simpl in Hl, Hl'.
  apply andb_true_iff in Hl as [Hx Hl]. apply andb_true_iff in Hl' as [Hy Hl'].
  destruct l as [|x2 l], l' as [|y2 l'].
  - simpl in E. by subst.
  - exfalso. by eapply (comma_free_no_split x y).
  - exfalso. symmetry in E. by eapply (comma_free_no_split y x).
  - change (x +:+ String ","%char (Js.join "," (x2 :: l))
            = y +:+ String ","%char (Js.join "," (y2 :: l'))) in E.
    destruct (comma_split_unique _ _ _ _ Hx Hy E) as [-> E'].
    f_equal. by apply IH.
Qed.

(** X7: when no detected header name holds a comma, the header check of
    line 80 accepts exactly the expected sequence; any other such header
    ends the upload with the single header message, no retained row and
    no request. *)
Theorem header_check_exact_without_commas (fields : list string)
    (data : list (gmap string string)) (net : nat → fetch_outcome)
    (order : list nat) (st : State) :
  forallb comma_free fields = true →
  (header_matches (Some fields) = true ↔ fields = expectedHeaders)
  ∧ (fields ≠ expectedHeaders →
     errors (state (complete (Papa.Results data (Some fields)) net order st))
       = [header_error]
     ∧ validatedData
         (state (complete (Papa.Results data (Some fields)) net order st)) = []
     ∧ requests (complete (Papa.Results data (Some fields)) net order st) = []).
Proof.
  intros Hfree.
  assert (Hiff : header_matches (Some fields) = true ↔ fields = expectedHeaders).
  { split.
    - simpl. intros E%String.eqb_eq. destruct fields as [|x fields].
      + vm_compute in E. discriminate.
      + apply join_comma_inj; first [done | vm_compute; reflexivity].
    - intros ->. vm_compute. reflexivity. }
  split; [done|]. intros Hne. apply complete_header_mismatch. simpl.
  destruct (header_matches (Some fields)) eqn:E; [|done].
  exfalso. apply Hne. by apply Hiff.
Qed.

(** *** Upload life cycle *)

Lemma all_waits {A} (vs : list A) (order : list nat) (i : nat) :
  (i < length vs)%nat → i ∉ order →
  Promise.settled (Promise.all (Js.Normal <$> vs) order) = None.
Proof.
  intros Hi Hout. unfold Promise.all. rewrite length_fmap.
  destruct (all_inv_run vs order [] _ (all_inv_start vs)) as [Hv Hr Hs].
  rewrite Hs, Hr, Hv.
  destruct (lookup_lt_is_Some_2 vs i Hi) as [v Hvi].
  assert (Hopen : slots_of (reverse order ++ []) vs !! i = Some None).
  { rewrite slots_of_lookup, Hvi. simpl. rewrite decide_False; [done|].
    rewrite app_nil_r, elem_of_reverse. done. }
  apply open_slots_lookup in Hopen.
  destruct (Nat.eqb_spec (open_slots (slots_of (reverse order ++ []) vs)) 0)
    as [E|E]; [lia|done].
Qed.

(** X8: the join over the lookups never rejects, whatever the requests
    do and in whatever order the lookups complete, so the [catch] of
    line 108 is never entered: one row's failure cannot abort the
    batch. *)
Theorem batch_never_rejects (net : nat → fetch_outcome)
    (validRows : list CsvRow) (order : list nat) (e : Js.error) :
  Promise.settled (Promise.all (lookups net validRows) order)
  ≠ Some (Js.Throw e).
Proof.
  rewrite lookups_settle.
  destruct (all_pending_or_in_order
              (imap (fun i row => annotate row (net i)) validRows) order)
    as [-> | ->]; discriminate.
Qed.

(** X9: an accepted upload stores its results only when every lookup has
    completed.  While one is outstanding the rows held before the upload
    are still held and [loading] is on, although the new error list is
    already in place and every request has been sent. *)
Theorem upload_waits_for_every_lookup (results : Papa.results)
    (net : nat → fetch_outcome) (order : list nat) (st : State) (i : nat) :
  header_matches (Papa.meta_fields results) = true →
  (i < length (validate_rows (Papa.data results)).1)%nat → i ∉ order →
  validatedData (state (complete results net order st)) = validatedData st
  ∧ loading (state (complete results net order st)) = true
  ∧ errors (state (complete results net order st))
    = (validate_rows (Papa.data results)).2
  ∧ requests (complete results net order st)
    = apiUrl <$> (validate_rows (Papa.data results)).1.
Proof.
  intros Hhdr Hi Hout. unfold complete. rewrite Hhdr. simpl.
  destruct (validate_rows (Papa.data results)) as [rows errs]. simpl in *.
  rewrite lookups_settle, (all_waits _ order i); [done| |done].
  by rewrite length_imap.
Qed.

Lemma complete_when_done (results : Papa.results)
    (net : nat → fetch_outcome) (order : list nat) (st : State) :
  header_matches (Papa.meta_fields results) = true →
  (∀ i, (i < length (validate_rows (Papa.data results)).1)%nat → i ∈ order) →
  state (complete results net order st)
  = {| validatedData :=
         imap (fun i row => annotate row (net i))
           (validate_rows (Papa.data results)).1;
       errors := (validate_rows (Papa.data results)).2;
       loading := false;
       fileInput := fileInput st |}.
Proof.
  intros Hhdr Hcov. unfold complete. rewrite Hhdr. simpl.
  destruct (validate_rows (Papa.data results)) as [rows errs]. simpl in *.
  rewrite lookups_settle, all_in_order; [done|].
  intros i Hi. apply Hcov. by rewrite length_imap in Hi.
Qed.

(** X10: once every lookup of an accepted upload has completed, the
    state is fixed by the file and the network alone: rows and errors of
    an earlier upload are replaced, not merged, [loading] is off, and
    the file input is left as it was. *)
Theorem completed_upload_replaces_state (results : Papa.results)
    (net : nat → fetch_outcome) (order : list nat) (st st' : State) :
  header_matches (Papa.meta_fields results) = true →
  (∀ i, (i < length (validate_rows (Papa.data results)).1)%nat → i ∈ order) →
  errors (state (complete results net order st))
    = (validate_rows (Papa.data results)).2
  ∧ loading (state (complete results net order st)) = false
  ∧ fileInput (state (complete results net order st)) = fileInput st
  ∧ validatedData (state (complete results net order st))
    = validatedData (state (complete results net order st'))
  ∧ errors (state (complete results net order st))
    = errors (state (complete results net order st')).
Proof.
  intros Hhdr Hcov.
  rewrite !(complete_when_done results net order) by done. done.
Qed.

(** *** What is shown *)

Lemma status_color_annotate (row : CsvRow) (o : fetch_outcome) :
  status_color (activationStatus (annotate row o))
  = match o with
    | Response (Json j) =>
        if affirmative j then "green"
        else match j with Js.JNull => "inherit" | _ => "red" end
    | _ => "inherit"
    end.
Proof.
  destruct o as [|[|j]]; try reflexivity.
  destruct j as [| | | | |members]; try reflexivity.
  unfold annotate, expected_status. cbn [activationStatus].
  by destruct (affirmative (Js.JObject members)).
Qed.

(** X11: what the page shows after an accepted upload whose lookups
    have all completed: no loading image; the error section exactly when
    some record failed; the table and the result-download button exactly
    when some record was valid, the table holding one line per valid
    row in input order, its status cell green for an affirmative
    payload, red for any other payload that could be read, and
    uncoloured for a failed lookup. *)
Theorem completed_upload_view (results : Papa.results)
    (net : nat → fetch_outcome) (order : list nat) (st : State) :
  header_matches (Papa.meta_fields results) = true →
  (∀ i, (i < length (validate_rows (Papa.data results)).1)%nat → i ∈ order) →
  let validRows := (validate_rows (Papa.data results)).1 in
  let errorList := (validate_rows (Papa.data results)).2 in
  let view := render (state (complete results net order st)) in
  loading_image view = false
  ∧ (error_section view
     = if decide (errorList = []) then None
       else Some (map (fun err => " " +:+ err) errorList))
  ∧ download_button view = bool_decide (validRows ≠ [])
  ∧ (result_table view
     = if decide (validRows = []) then None
       else Some (imap (fun i row => render_row (annotate row (net i)))
                    validRows))
  ∧ (∀ i row, validRows !! i = Some row →
       color (render_row (annotate row (net i)))
       = match net i with
         | Response (Json j) =>
             if affirmative j then "green"
             else match j with Js.JNull => "inherit" | _ => "red" end
         | _ => "inherit"
         end).
Proof.
  intros Hhdr Hcov validRows errorList view.
  subst view. rewrite complete_when_done by done.
  fold validRows errorList. unfold render. simpl.
  rewrite length_imap, andb_true_r.
  split; [done|]. split.
  { destruct errorList; reflexivity. }
  split.
  { destruct validRows; reflexivity. }
  split.
  { destruct validRows as [|r rows] eqn:E; [reflexivity|].
    simpl. f_equal. apply list_eq. intros i.
    change (render_row (annotate r (net 0%nat))
            :: map render_row (imap ((fun i row => annotate row (net i)) ∘ S) rows))
      with (map render_row (imap (fun i row => annotate row (net i)) (r :: rows))).
    change (render_row (annotate r (net 0%nat))
            :: imap ((fun i row => render_row (annotate row (net i))) ∘ S) rows)
      with (imap (fun i row => render_row (annotate row (net i))) (r :: rows)).
    rewrite list_lookup_fmap, !list_lookup_imap.
    by destruct ((r :: rows) !! i). }
  intros i row _. exact (status_color_annotate row (net i)).
Qed.

(** X12: [handleClear] empties rows and errors and blanks an attached
    file input; afterwards the page shows neither the clear button, the
    result-download button, the error section nor the table, a result
    download does nothing, and clearing again changes nothing.  It
    leaves [loading] as it is. *)
Theorem clear_resets_the_page (st : State) (b : Browser) :
  render (handleClear st)
  = {| clear_button := false; download_button := false;
       error_section := None; loading_image := loading st;
       result_table := None |}
  ∧ handleDownloadCSV (handleClear st) b = b
  ∧ handleClear (handleClear st) = handleClear st
  ∧ (fileInput st ≠ None → fileInput (handleClear st) = Some EmptyString).
Proof.
  repeat split.
  - unfold handleClear. simpl. by destruct (fileInput st).
  - unfold handleClear. simpl. by destruct (fileInput st).
Qed.

(** *** Downloads *)

(** X13: whenever the page shows the result-download button, clicking it
    does start a download of [activation_results.csv] from a new object
    URL that holds the report of the retained rows; the early return of
    line 137 is taken only when there is no row, and then the button is
    not shown. *)
Theorem shown_download_button_downloads (st : State) (b : Browser) :
  browser_ok b →
  (download_button (render st) = true →
     downloads (handleDownloadCSV st b)
     = downloads b ++ [("activation_results.csv", next_url b)]
     ∧ objectURLs (handleDownloadCSV st b) !! next_url b
       = Some (csv_blob (report_csv (validatedData st))))
  ∧ (handleDownloadCSV st b = b ↔ validatedData st = [])
  ∧ (validatedData st = [] → download_button (render st) = false).
Proof.
  intros [Hnodes Hurls].
  assert (Hsome : validatedData st ≠ [] →
    handleDownloadCSV st b
    = download_csv (report_csv (validatedData st)) "activation_results.csv" b).
  { intros Hne. unfold handleDownloadCSV. by destruct (validatedData st). }
  split; [|split].
  - unfold render. simpl. intros [Hrows _]%andb_true_iff.
    assert (Hne : validatedData st ≠ []).
    { intros E. rewrite E in Hrows. discriminate. }
    rewrite (Hsome Hne).
    destruct (download_csv_effect (report_csv (validatedData st))
                "activation_results.csv" b Hnodes) as (-> & _ & ->).
    by rewrite lookup_insert_eq.
  - split.
    + intros E. destruct (validatedData st) as [|r rows] eqn:Erows; [done|].
      exfalso. rewrite Hsome in E by done.
      destruct (download_csv_effect (report_csv (r :: rows))
                  "activation_results.csv" b Hnodes) as (_ & _ & Hd).
      rewrite E in Hd. apply (f_equal length) in Hd.
      rewrite length_app in Hd. simpl in Hd. lia.
    + intros E. unfold handleDownloadCSV. by rewrite E.
  - intros E. unfold render. simpl. by rewrite E.
Qed.

Lemma download_csv_ok (csv name : string) (b : Browser) :
  browser_ok b →
  browser_ok (download_csv csv name b)
  ∧ body_children (download_csv csv name b) = body_children b
  ∧ (∀ k blob, objectURLs b !! k = Some blob →
       objectURLs (download_csv csv name b) !! k = Some blob)
  ∧ size (objectURLs (download_csv csv name b)) = S (size (objectURLs b))
  ∧ length (downloads (download_csv csv name b)) = S (length (downloads b)).
Proof.
  intros [Hnodes Hurls].
  destruct (download_csv_effect csv name b Hnodes) as (Hu & Hb & Hd).
  assert (Hfree : objectURLs b !! next_url b = None) by (apply Hurls; lia).
  split; [split|split; [|split; [|split]]].
  - rewrite Hb. unfold download_csv. simpl.
    eapply Forall_impl; [exact Hnodes|]. simpl. intros a Ha. lia.
  - intros k Hk. rewrite Hu. unfold download_csv in *. simpl in *.
    rewrite lookup_insert_ne by lia. apply Hurls. lia.
  - done.
  - intros k blob Hk. rewrite Hu. rewrite lookup_insert_ne; [done|].
    intros <-. congruence.
  - rewrite Hu. by apply map_size_insert_None.
  - rewrite Hd, length_app. simpl. lia.
Qed.

Lemma handle_browser (ev : event) (w : State * Browser) :
  browser_ok w.2 →
  browser_ok (handle ev w).2
  ∧ body_children (handle ev w).2 = body_children w.2
  ∧ (∀ k blob, objectURLs w.2 !! k = Some blob →
       objectURLs (handle ev w).2 !! k = Some blob)
  ∧ (size (objectURLs (handle ev w).2) + length (downloads w.2)
     = size (objectURLs w.2) + length (downloads (handle ev w).2))%nat.
Proof.
  intros Hok. destruct w as [st b]. cbn [fst snd] in *.
  destruct ev as [|d file net order| |]; unfold handle; cbn [fst snd].
  - done.
  - done.
  - destruct (download_csv_ok header_csv "csv_header_format.csv" b Hok)
      as (? & ? & ? & Hs & Hd).
    unfold handleDownloadHeaderCSV.
    split; [done|]. split; [done|]. split; [done|]. rewrite Hs, Hd. lia.
  - unfold handleDownloadCSV.
    destruct (length (validatedData st) =? 0)%nat; [done|].
    destruct (download_csv_ok (report_csv (validatedData st))
                "activation_results.csv" b Hok) as (? & ? & ? & Hs & Hd).
    split; [done|]. split; [done|]. split; [done|]. rewrite Hs, Hd. lia.
Qed.

(** X14: over any sequence of user events the handlers leave no link
    element behind in the document and never release an object URL:
    every URL that was in the store stays there, and the store has grown
    by one entry for each download that was started. *)
Theorem downloads_accumulate_object_urls (evs : list event) (st : State)
    (b : Browser) :
  browser_ok b →
  browser_ok (run evs (st, b)).2
  ∧ body_children (run evs (st, b)).2 = body_children b
  ∧ (∀ k blob, objectURLs b !! k = Some blob →
       objectURLs (run evs (st, b)).2 !! k = Some blob)
  ∧ (size (objectURLs (run evs (st, b)).2) + length (downloads b)
     = size (objectURLs b) + length (downloads (run evs (st, b)).2))%nat.
Proof.
  revert st b. induction evs as [|ev evs IH]; intros st b Hok; simpl.
  - done.
  - destruct (handle_browser ev (st, b) Hok) as (Hok' & Hb & Hu & Hs).
    destruct (handle ev (st, b)) as [st' b'] eqn:E. simpl in *.
    destruct (IH st' b' Hok') as (Hok'' & Hb' & Hu' & Hs').
    split; [done|]. split; [congruence|]. split; [auto|]. lia.
Qed.

(** *** Numeric text *)

Lemma trim_start_blank (l : list ascii) :
  forallb Js.is_space l = true → Js.trim_start l = [].
Proof.
  induction l as [|c l IH]; simpl; [done|].
  intros [Hc Hl]%andb_true_iff. rewrite Hc. by apply IH.
Qed.

Lemma Number_blank (s : string) : blank s = true → Js.Number s = Js.zero.
Proof.
  intros Hs. unfold Js.Number, Js.trim.
  by rewrite (trim_start_blank (list_ascii_of_string s)) by exact Hs.
Qed.

(** X15: a [uid] or [membershipplanid] text made of white space only
    (the empty text included) is not rejected: [Number] turns it into 0,
    so the field passes and a row that parses carries 0 there. *)
Theorem blank_numeric_text_is_zero (row : gmap string string) (s : string) :
  blank s = true →
  (row !! "uid" = Some s →
     ¬ fails_on "uid" (safeParse row)
     ∧ ∀ d, safeParse row = Success d → uid d = Js.zero)
  ∧ (row !! "membershipplanid" = Some s →
     ¬ fails_on "membershipplanid" (safeParse row)
     ∧ ∀ d, safeParse row = Success d → membershipplanid d = Js.zero).
Proof.
  intros Hs. pose proof (Number_blank s Hs) as Hz.
  destruct (fails_on_field row) as (_ & _ & _ & Hi & _ & Hm).
  split; intros Hrow; split.
  - rewrite Hi. unfold parse_uid. rewrite number_issues by done.
    rewrite Hrow. simpl. by rewrite Hz.
  - intros d (_ & _ & _ & Hu & _)%safeParse_success_inv.
    apply number_valid_inv in Hu. rewrite Hu, Hrow. exact Hz.
  - rewrite Hm. unfold parse_membershipplanid. rewrite number_issues by done.
    rewrite Hrow. simpl. by rewrite Hz.
  - intros d (_ & _ & _ & _ & _ & _ & Hp)%safeParse_success_inv.
    apply number_valid_inv in Hp. rewrite Hp, Hrow. exact Hz.
Qed.

(** *** The report, written and read back *)

Lemma chars_app (a b : string) :
  list_ascii_of_string (a +:+ b)
  = list_ascii_of_string a ++ list_ascii_of_string b.
Proof. induction a as [|c a IH]; simpl; [done|]. by rewrite IH. Qed.

Lemma finish_rows (fld : list ascii) (row : list string)
    (rows : list (list string)) :
  Papa.finish fld row rows = rev rows ++ Papa.finish fld row [].
Proof. unfold Papa.finish. reflexivity. Qed.

(** Rows that are complete stay as they are while the rest is read. *)
Lemma scan_rows (d : Papa.dialect) (input : list ascii) (skip : nat)
    (m : Papa.mode) (fld raw : list ascii) (row : list string)
    (rows : list (list string)) :
  Papa.scan d input skip m fld raw row rows
  = rev rows ++ Papa.scan d input skip m fld raw row [].
Proof.
  revert skip m fld raw row rows.
  induction input as [|c rest IH]; intros skip m fld raw row rows.
  - simpl. destruct m; apply finish_rows.
  - simpl. destruct skip as [|k]; [|apply IH].
    destruct m.
    + destruct (Ascii.eqb c Papa.quote); [apply IH|].
      destruct (Ascii.eqb c (Papa.delimiter d)); [apply IH|].
      destruct (Papa.starts_newline _ _ _); [|apply IH].
      rewrite IH, (IH _ _ _ _ _ [_]). simpl. by rewrite <- app_assoc.
    + destruct (Ascii.eqb c (Papa.delimiter d)); [apply IH|].
      destruct (Papa.starts_newline _ _ _); [|apply IH].
      rewrite IH, (IH _ _ _ _ _ [_]). simpl. by rewrite <- app_assoc.
    + destruct (Ascii.eqb c Papa.quote); [|apply IH].
      destruct rest as [|c' rest']; [apply finish_rows|].
      destruct (Ascii.eqb c' Papa.quote); [apply IH|].
      destruct (Papa.closing d (c' :: rest') 0) as [[[|] k]|]; try apply IH.
      rewrite IH, (IH _ _ _ _ _ [_]). simpl. by rewrite <- app_assoc.
Qed.

Lemma is_bad_false (c : ascii) :
  Papa.is_bad c = false →
  Ascii.eqb c Papa.cr = false ∧ Ascii.eqb c Papa.lf = false
  ∧ Ascii.eqb c Papa.quote = false ∧ Ascii.eqb c ","%char = false.
Proof.
  unfold Papa.is_bad. intros H.
  repeat (apply orb_false_iff in H as [H ?]). auto.
Qed.

(** An unquoted cell is read character by character up to what follows
    it. *)
Lemma scan_plain (nl : Papa.newline) (e k : list ascii) (m : Papa.mode)
    (fld raw : list ascii) (row : list string) (rows : list (list string)) :
  existsb Papa.is_bad e = false → m ≠ Papa.Quoted →
  Papa.scan (Papa.Dialect ","%char nl) (e ++ k) 0 m fld raw row rows
  = Papa.scan (Papa.Dialect ","%char nl) k 0
      (match e with [] => m | _ => Papa.Unquoted end)
      (rev e ++ fld) raw row rows.
Proof.
  revert m fld. induction e as [|c e IH]; intros m fld Hbad Hm; [done|].
  simpl in Hbad. apply orb_false_iff in Hbad as [Hc Hbad].
  destruct (is_bad_false c Hc) as (Hcr & Hlf & Hq & Hd).
  assert (Hnl : ∀ rest, Papa.starts_newline nl c rest = None).
  { intros rest. destruct nl; simpl; by rewrite ?Hcr, ?Hlf. }
  assert (Hstep :
    Papa.scan (Papa.Dialect ","%char nl) ((c :: e) ++ k) 0 m fld raw row rows
    = Papa.scan (Papa.Dialect ","%char nl) (e ++ k) 0 Papa.Unquoted
        (c :: fld) raw row rows).
  { simpl. destruct m; [| |done]; rewrite ?Hq, Hd, Hnl; reflexivity. }
  rewrite Hstep, IH by done.
  simpl. rewrite <- app_assoc. simpl. by destruct e.
Qed.

(** The body of a quoted cell: doubled quotes are read as one. *)
Lemma scan_quoted_body (d : Papa.dialect) (e k : list ascii)
    (fld raw : list ascii) (row : list string) (rows : list (list string)) :
  Papa.scan d (Papa.escape_quotes e ++ Papa.quote :: k) 0 Papa.Quoted
    fld raw row rows
  = Papa.scan d (Papa.quote :: k) 0 Papa.Quoted (rev e ++ fld)
      (rev (Papa.escape_quotes e) ++ raw) row rows.
Proof.
  revert fld raw. induction e as [|c e IH]; intros fld raw; [done|].
  cbn [Papa.escape_quotes]. destruct (Ascii.eqb c Papa.quote) eqn:Hq.
  - apply Ascii.eqb_eq in Hq as ->.
    change ((Papa.quote :: Papa.quote :: Papa.escape_quotes e)
            ++ Papa.quote :: k)
      with (Papa.quote :: Papa.quote
            :: (Papa.escape_quotes e ++ Papa.quote :: k)).
    cbn [Papa.scan]. rewrite !Ascii.eqb_refl. cbn [Papa.scan].
    rewrite IH. simpl. by rewrite <- !app_assoc.
  - change ((c :: Papa.escape_quotes e) ++ Papa.quote :: k)
      with (c :: (Papa.escape_quotes e ++ Papa.quote :: k)).
    cbn [Papa.scan]. rewrite Hq. rewrite IH. simpl. by rewrite <- !app_assoc.
Qed.

Lemma escape_plain (e : list ascii) :
  existsb Papa.is_bad (Papa.escape_quotes e) = false →
  Papa.escape_quotes e = e ∧ existsb Papa.is_bad e = false.
Proof.
  induction e as [|c e IH]; [done|]. cbn [Papa.escape_quotes].
  destruct (Ascii.eqb c Papa.quote) eqn:Hq.
  - simpl. discriminate.
  - simpl. intros [Hc H]%orb_false_iff. destruct (IH H) as [-> ->].
    by rewrite Hc.
Qed.

Lemma text_chars (s : string) :
  Papa.text (rev (list_ascii_of_string s) ++ []) = s.
Proof.
  unfold Papa.text.
  by rewrite app_nil_r, rev_involutive, string_of_list_ascii_of_string.
Qed.

(** A cell as [safe] writes it is read back as the cell, whatever ends
    it, provided the reader treats that end the same way after an
    unquoted cell and after a closing quote. *)
Lemma scan_cell (s : string) (k : list ascii) (row : list string)
    (rows : list (list string)) (R : string → list (list string)) :
  (∀ m fld raw, m ≠ Papa.Quoted →
     Papa.scan comma_crlf k 0 m fld raw row rows = R (Papa.text fld)) →
  (∀ fld raw,
     Papa.scan comma_crlf (Papa.quote :: k) 0 Papa.Quoted fld raw row rows
     = R (Papa.text fld)) →
  Papa.scan comma_crlf (list_ascii_of_string (Papa.safe s) ++ k) 0
    Papa.FieldStart [] [] row rows
  = R s.
Proof.
  intros Hplain Hquoted. unfold Papa.safe.
  rewrite list_ascii_of_string_of_list_ascii.
  destruct (Papa.needs_quotes (Papa.escape_quotes (list_ascii_of_string s)))
    eqn:Hq.
  - change ((Papa.quote :: Papa.escape_quotes (list_ascii_of_string s)
             ++ [Papa.quote]) ++ k)
      with (Papa.quote :: ((Papa.escape_quotes (list_ascii_of_string s)
             ++ [Papa.quote]) ++ k)).
    rewrite <- app_assoc. cbn [Papa.scan app]. rewrite Ascii.eqb_refl.
    rewrite scan_quoted_body, Hquoted. by rewrite text_chars.
  - unfold Papa.needs_quotes in Hq.
    apply orb_false_iff in Hq as [[Hbad _]%orb_false_iff _].
    destruct (escape_plain _ Hbad) as [-> Hbad'].
    unfold comma_crlf. rewrite scan_plain by done.
    fold comma_crlf. rewrite Hplain; [by rewrite text_chars|].
    by destruct (list_ascii_of_string s).
Qed.

Lemma scan_cell_eof (s : string) (row : list string)
    (rows : list (list string)) :
  Papa.scan comma_crlf (list_ascii_of_string (Papa.safe s)) 0
    Papa.FieldStart [] [] row rows
  = rev (rev (s :: row) :: rows).
Proof.
  rewrite <- (app_nil_r (list_ascii_of_string (Papa.safe s))).
  apply (scan_cell s [] row rows (fun t => rev (rev (t :: row) :: rows))).
  - intros m fld raw Hm. by destruct m.
  - reflexivity.
Qed.

Lemma scan_cell_comma (s : string) (rest : list ascii) (row : list string)
    (rows : list (list string)) :
  Papa.scan comma_crlf (list_ascii_of_string (Papa.safe s) ++ ","%char :: rest)
    0 Papa.FieldStart [] [] row rows
  = Papa.scan comma_crlf rest 0 Papa.FieldStart [] [] (s :: row) rows.
Proof.
  apply (scan_cell s (","%char :: rest) row rows
           (fun t => Papa.scan comma_crlf rest 0 Papa.FieldStart [] []
                       (t :: row) rows)).
  - intros m fld raw Hm. by destruct m.
  - reflexivity.
Qed.

Lemma scan_cell_crlf (s : string) (rest : list ascii) (row : list string)
    (rows : list (list string)) :
  Papa.scan comma_crlf
    (list_ascii_of_string (Papa.safe s) ++ Papa.cr :: Papa.lf :: rest)
    0 Papa.FieldStart [] [] row rows
  = Papa.scan comma_crlf rest 0 Papa.FieldStart [] [] []
      (rev (s :: row) :: rows).
Proof.
  apply (scan_cell s (Papa.cr :: Papa.lf :: rest) row rows
           (fun t => Papa.scan comma_crlf rest 0 Papa.FieldStart [] [] []
                       (rev (t :: row) :: rows))).
  - intros m fld raw Hm. by destruct m.
  - reflexivity.
Qed.

Lemma write_row_chars (c c' : string) (cells : list string) :
  list_ascii_of_string (Papa.write_row (c :: c' :: cells))
  = list_ascii_of_string (Papa.safe c)
    ++ ","%char :: list_ascii_of_string (Papa.write_row (c' :: cells)).
Proof.
  unfold Papa.write_row.
  change (Js.join "," (map Papa.safe (c :: c' :: cells)))
    with (Papa.safe c +:+ String ","%char
            (Js.join "," (map Papa.safe (c' :: cells)))).
  by rewrite chars_app.
Qed.

(** A written line is read back as its cells, at the end of the text and
    before a line break. *)
Lemma scan_line_eof (cells row : list string) (rows : list (list string)) :
  cells ≠ [] →
  Papa.scan comma_crlf (list_ascii_of_string (Papa.write_row cells)) 0
    Papa.FieldStart [] [] row rows
  = rev (rev (rev cells ++ row) :: rows).
Proof.
  revert row. induction cells as [|c cells IH]; intros row Hne; [done|].
  destruct cells as [|c' cells].
  - apply scan_cell_eof.
  - rewrite write_row_chars, scan_cell_comma, IH by done.
    simpl. by rewrite <- !app_assoc.
Qed.

Lemma scan_line_crlf (cells row : list string) (rest : list ascii)
    (rows : list (list string)) :
  cells ≠ [] →
  Papa.scan comma_crlf
    (list_ascii_of_string (Papa.write_row cells) ++ Papa.cr :: Papa.lf :: rest)
    0 Papa.FieldStart [] [] row rows
  = Papa.scan comma_crlf rest 0 Papa.FieldStart [] [] []
      (rev (rev cells ++ row) :: rows).
Proof.
  revert row. induction cells as [|c cells IH]; intros row Hne; [done|].
  destruct cells as [|c' cells].
  - apply scan_cell_crlf.
  - rewrite write_row_chars. rewrite <- app_assoc. simpl.
    rewrite scan_cell_comma, IH by done.
    simpl. by rewrite <- !app_assoc.
Qed.

Lemma unparse_rows_chars (r r' : list string) (rows : list (list string)) :
  list_ascii_of_string (Papa.unparse_rows (r :: r' :: rows))
  = list_ascii_of_string (Papa.write_row r)
    ++ Papa.cr :: Papa.lf
       :: list_ascii_of_string (Papa.unparse_rows (r' :: rows)).
Proof.
  unfold Papa.unparse_rows.
  change (Js.join Papa.crlf (map Papa.write_row (r :: r' :: rows)))
    with (Papa.write_row r +:+ Papa.crlf
            +:+ Js.join Papa.crlf (map Papa.write_row (r' :: rows))).
  by rewrite !chars_app.
Qed.

(** What [Papa.unparse] writes, the row parser reads back, as long as
    there is a line and no line is without cells. *)
Lemma unparse_then_scan (rows acc : list (list string)) :
  rows ≠ [] → Forall (fun r => r ≠ []) rows →
  Papa.scan comma_crlf (list_ascii_of_string (Papa.unparse_rows rows)) 0
    Papa.FieldStart [] [] [] acc
  = rev acc ++ rows.
Proof.
  revert acc. induction rows as [|r rows IH]; intros acc Hne Hall; [done|].
  inversion Hall as [|? ? Hr Hrows]; subst.
  destruct rows as [|r' rows].
  - unfold Papa.unparse_rows. simpl Js.join.
    rewrite scan_line_eof by done.
    simpl. by rewrite app_nil_r, rev_involutive.
  - rewrite unparse_rows_chars, scan_line_crlf, IH by done.
    simpl. by rewrite app_nil_r, rev_involutive, <- app_assoc.
Qed.

Lemma report_lines_kept (rows : list ExtendedCsvRow) :
  List.filter (fun r => negb (Papa.testEmptyLine r))
    (report_keys :: map report_cells rows)
  = report_keys :: map report_cells rows.
Proof.
  simpl. f_equal. induction rows as [|r rows IH]; simpl; [done|].
  by rewrite IH.
Qed.

(** X16: the result report that [handleDownloadCSV] writes, read back by
    [Papa.parse] as comma-separated text with CRLF line breaks, gives
    the eight column names and, in order, one record per retained row
    that holds that row's cells under those names, whatever characters
    (commas, quotes, line breaks, spaces) the cells contain. *)
Theorem report_round_trip (rows : list ExtendedCsvRow) :
  Papa.parse comma_crlf (report_csv rows)
  = Papa.Results
      (map (fun r => Papa.processRow report_keys (report_cells r)) rows)
      (Some report_keys)
  ∧ ∀ r,
      Papa.processRow report_keys (report_cells r) !! "firstname"
        = Some (firstname (base r))
      ∧ Papa.processRow report_keys (report_cells r) !! "lastname"
        = Some (lastname (base r))
      ∧ Papa.processRow report_keys (report_cells r) !! "username"
        = Some (username (base r))
      ∧ Papa.processRow report_keys (report_cells r) !! "uid"
        = Some (Number_toString (uid (base r)))
      ∧ Papa.processRow report_keys (report_cells r) !! "password"
        = Some (password (base r))
      ∧ Papa.processRow report_keys (report_cells r) !! "email"
        = Some (email (base r))
      ∧ Papa.processRow report_keys (report_cells r) !! "membershipplanid"
        = Some (Number_toString (membershipplanid (base r)))
      ∧ Papa.processRow report_keys (report_cells r) !! "activationStatus"
        = Some (activationStatus r).
Proof.
  split.
  - unfold Papa.parse, Papa.Parser, report_csv, Papa.unparse_objects.
    change (match report_keys with
            | [] => Papa.unparse_rows (map report_cells rows)
            | _ :: _ => Papa.unparse_rows (report_keys :: map report_cells rows)
            end)
      with (Papa.unparse_rows (report_keys :: map report_cells rows)).
    rewrite unparse_then_scan.
    + simpl rev. rewrite app_nil_l, report_lines_kept.
      by rewrite <- list_fmap_compose.
    + done.
    + constructor; [done|].
      induction rows as [|r rows IH]; simpl; constructor; done.
  - intros r. repeat split; reflexivity.
Qed.

(** The first line of a report is never taken for the expected header,
    whichever line break the text is read with. *)
Lemma report_header_refused (nl : Papa.newline) (rows : list ExtendedCsvRow) :
  ∃ hdr tl,
    Papa.Parser (Papa.Dialect ","%char nl) (report_csv rows) = hdr :: tl
    ∧ Papa.testEmptyLine hdr = false
    ∧ header_matches (Some hdr) = false.
Proof.
  unfold Papa.Parser, report_csv, Papa.unparse_objects.
  change (match report_keys with
          | [] => Papa.unparse_rows (map report_cells rows)
          | _ :: _ => Papa.unparse_rows (report_keys :: map report_cells rows)
          end)
    with (Papa.unparse_rows (report_keys :: map report_cells rows)).
  destruct rows as [|r rows].
  - destruct nl; vm_compute; eauto.
  - change (map report_cells (r :: rows))
      with (report_cells r :: map report_cells rows).
    rewrite unparse_rows_chars.
    set (rest := list_ascii_of_string (Papa.unparse_rows _)).
    let v := eval vm_compute in
               (list_ascii_of_string (Papa.write_row report_keys)) in
    change (list_ascii_of_string (Papa.write_row report_keys)) with v.
    destruct nl; simpl; rewrite scan_rows; simpl;
      eexists _, _; (split; [reflexivity|]); split; vm_compute; reflexivity.
Qed.

(** X17: a downloaded result report cannot be uploaded again: read as
    comma-separated text with any line break, its header line (eight
    names, the last being [activationStatus]) fails the header check, so
    the upload ends with the single header message, no retained row and
    no request. *)
Theorem report_upload_is_refused (nl : Papa.newline)
    (rows : list ExtendedCsvRow) (net : nat → fetch_outcome)
    (order : list nat) (st : State) :
  errors (state (handleFileUpload (Papa.Dialect ","%char nl)
                   (Some (report_csv rows)) net order st)) = [header_error]
  ∧ validatedData (state (handleFileUpload (Papa.Dialect ","%char nl)
                   (Some (report_csv rows)) net order st)) = []
  ∧ requests (handleFileUpload (Papa.Dialect ","%char nl)
                   (Some (report_csv rows)) net order st) = [].
Proof.
  unfold handleFileUpload. apply complete_header_mismatch.
  destruct (report_header_refused nl rows) as (hdr & tl & Hp & He & Hm).
  unfold Papa.parse. rewrite Hp. simpl. rewrite He. simpl. exact Hm.
Qed.

(** *** Decimal text *)








(** *** Upload of a file in the template's format *)


(** *** Table and report *)

Lemma table_cells (rows : list ExtendedCsvRow) :
  map cells (map render_row rows) = map report_cells rows.
Proof. induction rows as [|r rows IH]; simpl; [done|]. by rewrite IH. Qed.

(** X20: the report that the result download writes has the column names
    as its first line and then, line by line, exactly the cells of the
    table the page shows for the retained rows, in the same order. *)
Theorem report_matches_table (st : State) (table : list ResultRow) :
  result_table (render st) = Some table →
  report_csv (validatedData st)
  = Papa.unparse_rows (report_keys :: map cells table)
  ∧ length table = length (validatedData st)
  ∧ download_button (render st) = true.
Proof.
  unfold render. simpl.
  destruct ((0 <? length (validatedData st))%nat && negb (loading st)) eqn:E;
    [|discriminate].
  intros [= <-]. split; [|split].
  - rewrite table_cells. reflexivity.
  - by rewrite length_map.
  - done.
Qed.

End Coverage.

(** ** Further concrete evaluations *)

(** A record with an empty first name, a uid that is no number and an
    e-mail without [@]. *)
Lemma failure_reports_each_field_once_witness :
  safeParse (lib := sample_library)
    (input_record EmptyString "Lee" "annlee" "abc" "secret" "nobody" "3")
  = Failure [issue "firstname" "First name is required";
             issue "uid" "Expected number, received nan";
             issue "email" "Invalid email format"]
  ∧ NoDup (path <$> [issue "firstname" "First name is required";
                     issue "uid" "Expected number, received nan";
                     issue "email" "Invalid email format"]).
Proof.
  assert (E : safeParse (lib := sample_library)
                (input_record EmptyString "Lee" "annlee" "abc" "secret"
                   "nobody" "3")
              = Failure [issue "firstname" "First name is required";
                         issue "uid" "Expected number, received nan";
                         issue "email" "Invalid email format"])
    by (vm_compute; reflexivity).
  split; [exact E|].
  exact (proj1 (proj2 (proj2
    (failure_reports_each_field_once (lib := sample_library) _ _ E)))).
Defined.

(** A row object with a further key. *)
Lemma safeParse_reads_only_the_shape_witness :
  safeParse (lib := sample_library)
    (<["__parsed_extra" := "x"]>
       (input_record "Ann" "Lee" "annlee" "7" "secret" "ann@example.org" "3"))
  = safeParse (lib := sample_library)
      (input_record "Ann" "Lee" "annlee" "7" "secret" "ann@example.org" "3").
Proof.
  apply (safeParse_reads_only_the_shape (lib := sample_library)).
  intros key Hkey.
  repeat (apply elem_of_cons in Hkey as [->|Hkey]; [reflexivity|]).
  by apply elem_of_nil in Hkey.
Defined.

(** A data line of two cells: the uid column has no cell. *)
Lemma missing_cell_fails_witness :
  expectedHeaders !! 3%nat = Some "uid"
  ∧ (length ["Ann"; "Lee"] ≤ 3)%nat
  ∧ issue "uid" "Expected number, received nan"
    ∈ errors_of (safeParse (lib := sample_library)
                   (Papa.processRow expectedHeaders ["Ann"; "Lee"])).
Proof.
  assert (Hkey : expectedHeaders !! 3%nat = Some "uid") by reflexivity.
  assert (Hlen : (length ["Ann"; "Lee"] ≤ 3)%nat) by (simpl; lia).
  split; [exact Hkey|]. split; [exact Hlen|].
  exact (proj2 (missing_cell_fails (lib := sample_library)
                  ["Ann"; "Lee"] 3 "uid" Hkey Hlen)).
Defined.

(** A header with two columns swapped. *)
Lemma header_check_exact_without_commas_witness :
  forallb comma_free
    ["lastname"; "firstname"; "username"; "uid"; "password"; "email";
     "membershipplanid"] = true
  ∧ errors (state (complete (lib := sample_library)
                     (Papa.Results []
                        (Some ["lastname"; "firstname"; "username"; "uid";
                               "password"; "email"; "membershipplanid"]))
                     sample_net [] sample_state))
    = [header_error].
Proof.
  assert (Hfree : forallb comma_free
            ["lastname"; "firstname"; "username"; "uid"; "password"; "email";
             "membershipplanid"] = true) by reflexivity.
  split; [exact Hfree|].
  apply (proj2 (header_check_exact_without_commas (lib := sample_library)
                  _ [] sample_net [] sample_state Hfree)).
  discriminate.
Defined.

(** The two-row upload while its second lookup is outstanding. *)
Lemma upload_waits_for_every_lookup_witness :
  header_matches (Papa.meta_fields (Papa.parse Papa.comma_lf sample_upload))
  = true
  ∧ (1 < length (validate_rows (lib := sample_library)
                   (Papa.data (Papa.parse Papa.comma_lf sample_upload))).1)%nat
  ∧ (1%nat ∉ [0%nat])
  ∧ validatedData (state (complete (lib := sample_library)
                            (Papa.parse Papa.comma_lf sample_upload)
                            sample_net [0%nat] sample_state))
    = validatedData sample_state
  ∧ loading (state (complete (lib := sample_library)
                      (Papa.parse Papa.comma_lf sample_upload)
                      sample_net [0%nat] sample_state)) = true.
Proof.
  assert (Hhdr : header_matches
            (Papa.meta_fields (Papa.parse Papa.comma_lf sample_upload)) = true)
    by (vm_compute; reflexivity).
  assert (Hlen : (1 < length (validate_rows (lib := sample_library)
                     (Papa.data (Papa.parse Papa.comma_lf sample_upload))).1)%nat)
    by (vm_compute; lia).
  assert (Hout : 1%nat ∉ [0%nat]).
  { intros H. apply elem_of_cons in H as [H|H]; [discriminate|].
    by apply elem_of_nil in H. }
  split; [exact Hhdr|]. split; [exact Hlen|]. split; [exact Hout|].
  destruct (upload_waits_for_every_lookup (lib := sample_library)
              (Papa.parse Papa.comma_lf sample_upload) sample_net [0%nat]
              sample_state 1 Hhdr Hlen Hout) as (Hv & Hl & _).
  split; [exact Hv|exact Hl].
Defined.

Lemma sample_upload_covered :
  ∀ i, (i < length (validate_rows (lib := sample_library)
                      (Papa.data (Papa.parse Papa.comma_lf sample_upload))).1)%nat
       → i ∈ [1%nat; 0%nat].
Proof.
  intros i Hi. vm_compute in Hi.
  destruct i as [|[|i]]; [repeat constructor | repeat constructor | lia].
Defined.

Lemma sample_upload_header :
  header_matches (Papa.meta_fields (Papa.parse Papa.comma_lf sample_upload))
  = true.
Proof. vm_compute. reflexivity. Defined.

(** The two-row upload once both lookups have completed, from two
    different earlier states. *)
Lemma completed_upload_replaces_state_witness :
  validatedData (state (complete (lib := sample_library)
                          (Papa.parse Papa.comma_lf sample_upload)
                          sample_net [1%nat; 0%nat] sample_state))
  = validatedData (state (complete (lib := sample_library)
                            (Papa.parse Papa.comma_lf sample_upload)
                            sample_net [1%nat; 0%nat] initial)).
Proof.
  exact (proj1 (proj2 (proj2 (proj2
    (completed_upload_replaces_state (lib := sample_library)
       (Papa.parse Papa.comma_lf sample_upload) sample_net [1%nat; 0%nat]
       sample_state initial sample_upload_header sample_upload_covered))))).
Defined.

(** What is shown after the two-row upload: no loading image and the
    download button. *)
Lemma completed_upload_view_witness :
  loading_image (render (lib := sample_library)
                   (state (complete (lib := sample_library)
                             (Papa.parse Papa.comma_lf sample_upload)
                             sample_net [1%nat; 0%nat] sample_state)))
  = false.
Proof.
  exact (proj1
    (completed_upload_view (lib := sample_library)
       (Papa.parse Papa.comma_lf sample_upload) sample_net [1%nat; 0%nat]
       sample_state sample_upload_header sample_upload_covered)).
Defined.

Lemma fresh_browser_ok : browser_ok fresh_browser.
Proof.
  split; [constructor|]. intros k _. apply lookup_empty.
Defined.

(** The result download from a fresh page that holds one result. *)
Lemma shown_download_button_downloads_witness :
  browser_ok fresh_browser
  ∧ download_button (render (lib := sample_library) sample_state) = true
  ∧ downloads (handleDownloadCSV (lib := sample_library) sample_state
                 fresh_browser)
    = downloads fresh_browser ++ [("activation_results.csv", 0%nat)].
Proof.
  split; [exact fresh_browser_ok|]. split; [reflexivity|].
  exact (proj1 (proj1
    (shown_download_button_downloads (lib := sample_library) sample_state
       fresh_browser fresh_browser_ok) eq_refl)).
Defined.

(** Two downloads and a clear from a fresh page. *)
Lemma downloads_accumulate_object_urls_witness :
  browser_ok fresh_browser
  ∧ body_children
      (run (lib := sample_library)
         [DownloadHeaderClicked; DownloadResultClicked; ClearClicked]
         (sample_state, fresh_browser)).2
    = body_children fresh_browser.
Proof.
  split; [exact fresh_browser_ok|].
  exact (proj1 (proj2
    (downloads_accumulate_object_urls (lib := sample_library)
       [DownloadHeaderClicked; DownloadResultClicked; ClearClicked]
       sample_state fresh_browser fresh_browser_ok))).
Defined.

(** A uid of two spaces. *)
Lemma blank_numeric_text_is_zero_witness :
  blank "  " = true
  ∧ ¬ fails_on "uid"
        (safeParse (lib := sample_library)
           (input_record "Ann" "Lee" "annlee" "  " "secret"
              "ann@example.org" "3")).
Proof.
  assert (Hb : blank "  " = true) by reflexivity.
  split; [exact Hb|].
  exact (proj1 (proj1
    (blank_numeric_text_is_zero (lib := sample_library)
       (input_record "Ann" "Lee" "annlee" "  " "secret" "ann@example.org" "3")
       "  " Hb) eq_refl)).
Defined.



(** The table and the report of the state that holds one result. *)
Lemma report_matches_table_witness :
  result_table (render (lib := sample_library) sample_state)
  = Some (map (render_row (lib := sample_library)) (validatedData sample_state))
  ∧ report_csv (lib := sample_library) (validatedData sample_state)
    = Papa.unparse_rows
        (report_keys
         :: map cells (map (render_row (lib := sample_library))
                         (validatedData sample_state))).
Proof.
  assert (Ht : result_table (render (lib := sample_library) sample_state)
               = Some (map (render_row (lib := sample_library))
                         (validatedData sample_state))) by reflexivity.
  split; [exact Ht|].
  exact (proj1 (report_matches_table (lib := sample_library) sample_state _ Ht)).
Defined.
